(** * card-server: the secure shuffle of [shuffle.c]

    A shallow embedding of [secure_random_bit], [secure_random] and
    [shuffle_deck], and the properties of the entropy buffer, the
    growing-width rejection sampler and the Fisher-Yates shuffle.

    Conventions.
    - [uint32_t] values are [Z] in [[0, 2^32)]; every operation that can
      leave that range is followed by [wrap].
    - The process is a state transformer that either returns, calls
      [exit], executes an operation undefined in C, or is still running
      when the fuel of a [while] loop is spent.
    - [/dev/urandom] is a function from the number of earlier opens to
      what the next [open]/[read] pair does. *)

From Stdlib Require Import ZArith Lia ZifyNat Strings.Byte Strings.Ascii.
From stdpp Require Import base list strings.

Local Open Scope Z_scope.

(** ** Outcomes of a run *)

Inductive outcome (St A : Type) : Type :=
| Ret (a : A) (s : St)                       (* normal return *)
| Exit (status : Z) (diag : string) (s : St) (* exit(status), diag on stderr *)
| Undef                                     (* undefined behaviour in C *)
| OutOfFuel.                                (* a loop is still running *)

Arguments Ret {St A} a s.
Arguments Exit {St A} status diag s.
Arguments Undef {St A}.
Arguments OutOfFuel {St A}.

Definition M (St A : Type) : Type := St -> outcome St A.

Definition ret {St A} (a : A) : M St A := fun s => Ret a s.

Definition bind {St A B} (m : M St A) (k : A -> M St B) : M St B :=
  fun s =>
    match m s with
    | Ret a s' => k a s'
    | Exit st d s' => Exit st d s'
    | Undef => Undef
    | OutOfFuel => OutOfFuel
    end.

Definition exit {St A} (status : Z) (diag : string) : M St A :=
  fun s => Exit status diag s.

Definition undef {St A} : M St A := fun _ => Undef.

Notation "x <- m ; k" := (bind m (fun x => k))
  (at level 20, m at level 100, k at level 200).
Notation "' pat <- m ; k" := (bind m (fun x => match x with pat => k end))
  (at level 20, pat pattern, m at level 100, k at level 200).

(** ** uint32_t *)

Definition wrap (x : Z) : Z := x mod 2 ^ 32.

(** ** The entropy buffer: [secure_random_bit] *)

Definition BUFSZ : nat := 256.
Definition MAX_RAND_BITS : Z := 28.

(** sizeof(rand_buf[0]) and sizeof(rand_buf), in bytes. *)
Definition WORD_BYTES : Z := 4.
Definition BUF_BYTES : nat := 1024.

(** What one [open("/dev/urandom")] followed by one [read] does. *)
Inductive urandom_result : Type :=
| OpenFailed                    (* open returns a negative descriptor *)
| ReadFailed                    (* read returns -1, nothing is stored *)
| ReadBytes (bs : list byte).   (* read stores these bytes, at most 1024 *)

(** The statics of [secure_random_bit] and the device they read. *)
Record entropy : Type := mkEntropy {
  rand_buf : list Z;
  max_winx : Z;
  winx : Z;
  bcnt : Z;
  urandom : nat -> urandom_result;
  opens : nat
}.

(** The state at process start: zeroed statics, nothing opened yet. *)
Definition entropy_init (dev : nat -> urandom_result) : entropy :=
  mkEntropy (replicate BUFSZ 0) 0 0 0 dev 0.

Definition byte_val (b : byte) : Z := Z.of_N (Byte.to_N b).

(** Byte [p] of the buffer memory once [bs] has been stored at its start.
    Words are little-endian: byte [k] of a word holds its bits
    [8k .. 8k+7]. Bytes the read did not reach keep their old content. *)
Definition mem_byte (bs : list byte) (old : list Z) (p : nat) : Z :=
  match bs !! p with
  | Some b => byte_val b
  | None => Z.land (Z.shiftr (default 0 (old !! (p / 4)%nat))
                             (8 * Z.of_nat (p mod 4))) 255
  end.

Definition load_word (bs : list byte) (old : list Z) (w : nat) : Z :=
  Z.lor (mem_byte bs old (4 * w))
    (Z.lor (Z.shiftl (mem_byte bs old (4 * w + 1)) 8)
       (Z.lor (Z.shiftl (mem_byte bs old (4 * w + 2)) 16)
              (Z.shiftl (mem_byte bs old (4 * w + 3)) 24))).

(** The buffer after [read(fd, rand_buf, sizeof(rand_buf))] stored [bs]. *)
Definition store_bytes (bs : list byte) (old : list Z) : list Z :=
  map (load_word bs old) (seq 0 BUFSZ).

(** The body of [if (winx == max_winx) { ... }]. The diagnostic of a
    failure is the argument of its [perror]. *)
Definition refill : M entropy unit :=
  fun e =>
    let e1 := mkEntropy (rand_buf e) (max_winx e) (winx e) (bcnt e)
                        (urandom e) (S (opens e)) in
    match urandom e (opens e) with
    | OpenFailed => Exit 1 "open" e1
    | ReadFailed => Exit 1 "read" e1
    | ReadBytes data =>
        let bs := take BUF_BYTES data in
        let rv := Z.of_nat (length bs) in
        let e2 := mkEntropy (store_bytes bs (rand_buf e)) (max_winx e)
                            (winx e) (bcnt e) (urandom e) (S (opens e)) in
        if rv <? WORD_BYTES then Exit 1 "read" e2
        else Ret tt (mkEntropy (rand_buf e2) (wrap (rv / WORD_BYTES)) 0 0
                               (urandom e2) (opens e2))
    end.

(** Lines 74-86: take the lowest bit of the current word, shift the word,
    count the bit and move to the next word after 32 of them. *)
Definition take_bit : M entropy Z :=
  fun e =>
    match rand_buf e !! Z.to_nat (winx e) with
    | None => Undef
    | Some word =>
        let bit := Z.land word 1 in
        let buf := <[Z.to_nat (winx e) := Z.shiftr word 1]> (rand_buf e) in
        let bcnt1 := wrap (bcnt e + 1) in
        if bcnt1 =? WORD_BYTES * 8
        then Ret bit (mkEntropy buf (max_winx e) (wrap (winx e + 1)) 0
                                (urandom e) (opens e))
        else Ret bit (mkEntropy buf (max_winx e) (winx e) bcnt1
                                (urandom e) (opens e))
    end.

Definition refill_due (e : entropy) : bool := winx e =? max_winx e.

Definition secure_random_bit : M entropy Z :=
  fun e =>
    (u <- (if refill_due e then refill else ret tt); take_bit) e.

(** ** The sampler and the shuffle

    [secure_random] and [shuffle_deck] reach the entropy buffer only
    through calls of [secure_random_bit]; they are written over the
    callee, so that the same text runs on the buffer above and on a plain
    stream of bits. *)

Definition DECK_SIZE : nat := 52.

Record Card : Type := mkCard { suit : ascii; rank : ascii }.

Section Sampler.
Context {St : Type}.
Variable random_bit : M St Z.

(** Lines 101-107: [while (rmax < max)]. Returns [(r, rmax)]. *)
Fixpoint grow_loop (fuel : nat) (max r rmax : Z) : M St (Z * Z) :=
  match fuel with
  | O => fun _ => OutOfFuel
  | S fuel' =>
      if rmax <? max then
        b <- random_bit;
        let r' := if b =? 1 then Z.lor r rmax else r in
        grow_loop fuel' max r' (wrap (Z.shiftl rmax 1))
      else ret (r, rmax)
  end.

(** Lines 112-127: [while (rmax - defect <= r)]. Returns [(r, rmax)]. *)
Fixpoint reject_loop (fuel : nat) (max r rmax defect : Z) : M St (Z * Z) :=
  match fuel with
  | O => fun _ => OutOfFuel
  | S fuel' =>
      if wrap (rmax - defect) <=? r then
        b <- random_bit;
        let r' := if b =? 1 then Z.lor r rmax else r in
        if rmax <? Z.shiftl 1 MAX_RAND_BITS then
          let rmax' := wrap (Z.shiftl rmax 1) in
          reject_loop fuel' max r' rmax' (rmax' mod max)
        else
          reject_loop fuel' max (Z.shiftr r' 1) rmax defect
      else ret (r, rmax)
  end.

(** [fuel] bounds the iterations of each of the two loops. Division by
    zero is undefined in C. The diagnostic is the text of the [fprintf],
    less its newline. *)
Definition secure_random (fuel : nat) (max : Z) : M St Z :=
  if max =? 0 then exit 1 "secure_random() called with max == 0"
  else
    '(r, rmax) <- grow_loop fuel max 0 1;
    let defect := rmax mod max in
    '(r, rmax) <- reject_loop fuel max r rmax defect;
    if rmax / max =? 0 then undef else ret (r / (rmax / max)).

(** The statements of one iteration of the shuffle that follow the
    draw: [temp = deck[i]; deck[i] = deck[j]; deck[j] = temp]. An
    access outside the array is undefined. *)
Definition swap_cards (deck : list Card) (i j : nat) : M St (list Card) :=
  match deck !! i, deck !! j with
  | Some ci, Some cj => ret (<[j := ci]> (<[i := cj]> deck))
  | _, _ => undef
  end.

(** Lines 158-166, from the value of [i] on. *)
Fixpoint shuffle_from (fuel : nat) (i : nat) (deck : list Card)
  : M St (list Card) :=
  match i with
  | O => ret deck
  | S i' =>
      j <- secure_random fuel (wrap (Z.of_nat i + 1));
      deck' <- swap_cards deck i (Z.to_nat j);
      shuffle_from fuel i' deck'
  end.

Definition shuffle_deck (fuel : nat) (deck : list Card) : M St (list Card) :=
  shuffle_from fuel (DECK_SIZE - 1) deck.
End Sampler.

(** [init_deck]: card [i] has suit [suits[i / 13]] and rank [ranks[i % 13]]. *)
Definition suits : list ascii := ["S"; "H"; "D"; "C"]%char.
Definition ranks : list ascii :=
  ["A"; "2"; "3"; "4"; "5"; "6"; "7"; "8"; "9"; "T"; "J"; "Q"; "K"]%char.

Definition init_deck : list Card :=
  map (fun i => mkCard (default "?"%char (suits !! (i / 13)%nat))
                       (default "?"%char (ranks !! (i mod 13)%nat)))
      (seq 0 DECK_SIZE).

(** ** A plain stream of bits as the entropy source

    The state is the number of bits consumed so far. *)
Definition stream_bit (bits : nat -> bool) : M nat Z :=
  fun n => Ret (if bits n then 1 else 0) (S n).

(** [n] successive calls of a bit source, results in call order. *)
Fixpoint draw_bits {St} (random_bit : M St Z) (n : nat) : M St (list Z) :=
  match n with
  | O => ret []
  | S n' => b <- random_bit; bs <- draw_bits random_bit n'; ret (b :: bs)
  end.

(** ** Vocabulary of the statements *)

(** The stream of bits that starts with [w] and goes on with [rest]. *)
Definition prepend (w : list bool) (rest : nat -> bool) : nat -> bool :=
  fun n => match w !! n with
           | Some b => b
           | None => rest (n - length w)%nat
           end.

Definition ones : nat -> bool := fun _ => true.
Definition zeros : nat -> bool := fun _ => false.

(** What holds of [r] and [rmax] at the head of the first loop, unless
    [rmax] has wrapped to 0: [rmax] is a power of two that fits 32 bits,
    [r] is below it, and every smaller power of two is below [max]. *)
Definition grow_inv (max r rmax : Z) : Prop :=
  exists k, 0 <= k <= 31 /\ rmax = 2 ^ k /\ 0 <= r < rmax /\
            forall j, 0 <= j < k -> 2 ^ j < max.

(** What holds at the head of the second loop. *)
Definition reject_inv (max r rmax defect : Z) : Prop :=
  exists k, 0 <= k <= 31 /\ rmax = 2 ^ k /\ 0 <= r < rmax /\
            max <= rmax /\ defect = rmax mod max /\
            (max <= 2 ^ MAX_RAND_BITS -> rmax <= 2 ^ MAX_RAND_BITS).

(** The exchange of positions [i] and [j], as a function on lists. *)
Definition swap (deck : list Card) (i j : nat) : list Card :=
  match deck !! i, deck !! j with
  | Some ci, Some cj => <[j := ci]> (<[i := cj]> deck)
  | _, _ => deck
  end.

(** The exchanges [(i, j0)], [(i-1, j1)], ... in this order. *)
Fixpoint swaps_from (i : nat) (js : list nat) (deck : list Card) : list Card :=
  match js with
  | [] => deck
  | j :: js' => swaps_from (Nat.pred i) js' (swap deck i j)
  end.

(** The draws [js] are in range when the one used at index [i] is at
    most [i]. *)
Fixpoint draws_in_range (i : nat) (js : list nat) : Prop :=
  match js with
  | [] => True
  | j :: js' => (j <= i)%nat /\ draws_in_range (Nat.pred i) js'
  end.

(** The draws of the shuffle alone: [secure_random (i + 1)] for [i] from
    the given index down to 1, in this order. *)
Fixpoint draws_from {St} (random_bit : M St Z) (fuel i : nat)
  : M St (list nat) :=
  match i with
  | O => ret []
  | S i' =>
      j <- secure_random random_bit fuel (wrap (Z.of_nat i + 1));
      js <- draws_from random_bit fuel i';
      ret (Z.to_nat j :: js)
  end.

(** Bit [i] of a block of 32-bit words: bit [i mod 32] of word [i / 32]. *)
Definition word_bit (B : list Z) (i : nat) : Z :=
  Z.b2z (Z.testbit (default 0 (B !! (i / 32)%nat)) (Z.of_nat (i mod 32))).

(** Bit [i] of a sequence of bytes: bit [i mod 8] of byte [i / 8]. *)
Definition byte_bit (bs : list byte) (i : nat) : Z :=
  Z.b2z (Z.testbit (default 0 (byte_val <$> bs !! (i / 8)%nat))
                   (Z.of_nat (i mod 8))).

(** The state of the statics once [n] bits of a block [B] of [nw] valid
    words have been taken: the word in use has lost its [n mod 32] low
    bits, the words after it are untouched. *)
Definition block_inv (B : list Z) (nw : nat) (dev : nat -> urandom_result)
    (op : nat) (n : nat) (e : entropy) : Prop :=
  max_winx e = Z.of_nat nw /\ winx e = Z.of_nat (n / 32) /\
  bcnt e = Z.of_nat (n mod 32) /\ urandom e = dev /\ opens e = op /\
  (forall w, (n / 32 < w)%nat -> rand_buf e !! w = B !! w) /\
  rand_buf e !! (n / 32)%nat
    = (fun x => Z.shiftr x (Z.of_nat (n mod 32))) <$> B !! (n / 32)%nat.

(** The state a successful refill leaves. *)
Definition refilled (e : entropy) (bs : list byte) : entropy :=
  mkEntropy (store_bytes bs (rand_buf e)) (Z.of_nat (length bs / 4)) 0 0
            (urandom e) (S (opens e)).

(** The number of opens of the device once a call has ended, where it
    has an end. *)
Definition opens_after {A} (o : outcome entropy A) : option nat :=
  match o with
  | Ret _ e' | Exit _ _ e' => Some (opens e')
  | Undef | OutOfFuel => None
  end.

(** A device whose every read stores six bytes: one word and a half. *)
Definition six_bytes : list byte := [x05; x00; xff; x80; x01; x02].
Definition six_byte_dev : nat -> urandom_result := fun _ => ReadBytes six_bytes.

(** ** The rest of the program: [init_deck], [print_deck], [main] *)

(** The process: the statics of [secure_random_bit] and what has been
    written to stdout. *)
Record process : Type := mkProcess {
  ent : entropy;
  stdout : list ascii
}.

(** [secure_random_bit] as a step of the process. *)
Definition process_bit : M process Z :=
  fun p =>
    match secure_random_bit (ent p) with
    | Ret b e => Ret b (mkProcess e (stdout p))
    | Exit st d e => Exit st d (mkProcess e (stdout p))
    | Undef => Undef
    | OutOfFuel => OutOfFuel
    end.

Definition newline : ascii := "010"%char.

Definition printf (cs : list ascii) : M process unit :=
  fun p => Ret tt (mkProcess (ent p) (stdout p ++ cs)).

(** Lines 148-152, from the value of [i] on, [count] iterations left:
    [deck[i].suit = suits[i / 13]; deck[i].rank = ranks[i % 13]]. An
    access outside an array is undefined. *)
Fixpoint init_deck_from {St} (count i : nat) (deck : list Card)
  : M St (list Card) :=
  match count with
  | O => ret deck
  | S count' =>
      match suits !! (i / 13)%nat, ranks !! (i mod 13)%nat with
      | Some s, Some r =>
          if decide (i < length deck)%nat
          then init_deck_from count' (S i) (<[i := mkCard s r]> deck)
          else undef
      | _, _ => undef
      end
  end.

(** [init_deck(deck)], on the array it is given. *)
Definition init_deck_into {St} (deck : list Card) : M St (list Card) :=
  init_deck_from DECK_SIZE 0 deck.

(** What [print_deck] writes for the card at index [i]: rank, suit, a
    space, and a newline after every 13th card. *)
Definition card_text (i : nat) (c : Card) : list ascii :=
  [rank c; suit c; " "%char]
  ++ (if ((i + 1) mod 13 =? 0)%nat then [newline] else []).

(** Lines 172-177, from the value of [i] on, [count] iterations left. *)
Fixpoint print_from (count i : nat) (deck : list Card) : M process unit :=
  match count with
  | O => ret tt
  | S count' =>
      match deck !! i with
      | Some c => u <- printf (card_text i c); print_from count' (S i) deck
      | None => undef
      end
  end.

Definition print_deck (deck : list Card) : M process unit :=
  print_from DECK_SIZE 0 deck.

(** The loop of [main]: [n] shuffles in a row. *)
Fixpoint shuffle_times {St} (random_bit : M St Z) (fuel n : nat)
    (deck : list Card) : M St (list Card) :=
  match n with
  | O => ret deck
  | S n' =>
      deck' <- shuffle_deck random_bit fuel deck;
      shuffle_times random_bit fuel n' deck'
  end.

(** [main] once line 183 has its count: [strtol_result] is what
    [strtol(argv[1], NULL, 0)] returned, [stack_deck] the content of the
    local array before [init_deck]. The conversion to [uint32_t] wraps.
    [main] does not return: it ends in [exit(0)]. The read of [argv[1]]
    itself is in [main_of_argv] below. *)
Definition main (fuel : nat) (strtol_result : Z) (stack_deck : list Card)
  : M process unit :=
  let uplim := wrap strtol_result in
  deck <- init_deck_into stack_deck;
  u <- printf (String.list_ascii_of_string "Original deck:" ++ [newline]);
  u <- print_deck deck;
  deck <- shuffle_times process_bit fuel (Z.to_nat uplim) deck;
  u <- printf ([newline] ++ String.list_ascii_of_string "Shuffled deck:" ++ [newline]);
  u <- print_deck deck;
  exit 0 "".

(** [main] from its entry. [argv] holds the strings [argv[0]] to
    [argv[argc - 1]]. Line 183 reads [argv[1]] without looking at [argc]:
    run without an argument, [argv[1]] is the null pointer that ends the
    array (or lies behind it when [argc] is 0), and [strtol] on it is
    undefined. [strtol] is the C library's [strtol(s, NULL, 0)] on a
    string, taken as a parameter. *)
Definition main_of_argv (strtol : string -> Z) (fuel : nat)
    (argv : list string) (stack_deck : list Card) : M process unit :=
  match argv !! 1%nat with
  | Some arg => main fuel (strtol arg) stack_deck
  | None => undef
  end.

(** The text of a whole deck, cards numbered from [i]. *)
Fixpoint deck_text (i : nat) (deck : list Card) : list ascii :=
  match deck with
  | [] => []
  | c :: deck' => card_text i c ++ deck_text (S i) deck'
  end.

(** The process at start. *)
Definition process_init (dev : nat -> urandom_result) : process :=
  mkProcess (entropy_init dev) [].

(** What the statics satisfy between calls: the buffer has its 256
    words, the word index is within the valid words, the bit count within
    a word. *)
Definition entropy_wf (e : entropy) : Prop :=
  length (rand_buf e) = BUFSZ /\ 0 <= winx e <= max_winx e /\
  max_winx e <= Z.of_nat BUFSZ /\ 0 <= bcnt e < 32.

(** An outcome that is not undefined, with [P] of a return and [Q] of
    an exit. *)
Definition safe_outcome {St A} (P : A -> St -> Prop)
    (Q : Z -> string -> St -> Prop) (o : outcome St A) : Prop :=
  match o with
  | Ret a s => P a s
  | Exit st d s => Q st d s
  | Undef => False
  | OutOfFuel => True
  end.

(** The number whose binary digits, low digit first, are the [k] bits of
    the stream from index [p] on. *)
Fixpoint bits_value (bits : nat -> bool) (p k : nat) : Z :=
  match k with
  | O => 0
  | S k' => Z.b2z (bits p) + 2 * bits_value bits (S p) k'
  end.

(** The number of bits of the narrowest width that reaches [max]. *)
Definition width (max : Z) : nat := Z.to_nat (Z.log2_up max).

(** The sum of the widths of the ranges the shuffle draws from, for
    indices [i] down to 1. *)
Fixpoint min_bits (i : nat) : nat :=
  match i with
  | O => 0
  | S i' => width (Z.of_nat i + 1) + min_bits i'
  end.

(** The bits of the whole words of one read, in the order of the bytes,
    low bit first. *)
Definition block_bits (data : list byte) : list Z :=
  map (byte_bit (take BUF_BYTES data))
      (seq 0 (32 * (length (take BUF_BYTES data) / 4))).

(** The bits of [m] successive reads, from the read numbered [op]. *)
Fixpoint device_bits (dev : nat -> urandom_result) (op m : nat) : list Z :=
  match m with
  | O => []
  | S m' =>
      match dev op with
      | ReadBytes data => block_bits data ++ device_bits dev (S op) m'
      | _ => []
      end
  end.

(** The exits of the entropy buffer: status 1, after [perror] of the
    call that failed. *)
Definition entropy_exit (st : Z) (d : string) : Prop :=
  st = 1 /\ (d = "open" \/ d = "read").

#[global] Instance Card_eq_dec : EqDecision Card.
Proof. solve_decision. Defined.

(** The two headings [main] prints. *)
Definition original_heading : list ascii :=
  String.list_ascii_of_string "Original deck:" ++ [newline].
Definition shuffled_heading : list ascii :=
  [newline] ++ String.list_ascii_of_string "Shuffled deck:" ++ [newline].

(** A source in state [s] that has delivered the first [p] of the bits
    [L]: its next calls return the rest of [L] and leave [s_end]. *)
Definition delivers {St} (random_bit : M St Z) (L : list Z) (s_end : St)
    (s : St) (p : nat) : Prop :=
  draw_bits random_bit (length L - p) s = Ret (drop p L) s_end.

(** ** Runs on concrete inputs *)

(** The example of the file header: a number in [[0, 4]] takes three bits;
    5, 6 and 7 are rejected and a fourth bit is added. *)
Example secure_random_5_accepted :
  secure_random (stream_bit (prepend [false; false; true] zeros)) 8 5 0%nat
  = Ret 4 3%nat.
Proof. reflexivity. Qed.

Example secure_random_5_rejected_once :
  secure_random (stream_bit (prepend [true; false; true; false] zeros)) 8 5 0%nat
  = Ret 1 4%nat.
Proof. reflexivity. Qed.

(** A power of two never rejects. *)
Example secure_random_8 :
  secure_random (stream_bit ones) 8 8 0%nat = Ret 7 3%nat.
Proof. reflexivity. Qed.

(** The largest range the first loop can serve. *)
Example secure_random_2_31 :
  secure_random (stream_bit zeros) 40 (2 ^ 31) 0%nat = Ret 0 31%nat.
Proof. reflexivity. Qed.

(** The first word of [six_bytes] is 0x80ff0005, low bit first; the 33rd
    call reads the device again and starts over. *)
Example six_bytes_first_word :
  load_word six_bytes (replicate BUFSZ 0) 0 = 2164195333.
Proof. reflexivity. Qed.

Example six_bytes_33_bits :
  match draw_bits secure_random_bit 33 (entropy_init six_byte_dev) with
  | Ret bs e => Some (bs, opens e, winx e, bcnt e, max_winx e)
  | _ => None
  end
  = Some ([1; 0; 1; 0; 0; 0; 0; 0; 0; 0; 0; 0; 0; 0; 0; 0;
           1; 1; 1; 1; 1; 1; 1; 1; 0; 0; 0; 0; 0; 0; 0; 1; 1],
          2%nat, 0, 1, 1).
Proof. vm_compute. reflexivity. Qed.

Example init_deck_corners :
  init_deck !! 0%nat = Some (mkCard "S" "A") /\
  init_deck !! 51%nat = Some (mkCard "C" "K") /\ length init_deck = 52%nat.
Proof. repeat split. Qed.

(** ** Arithmetic of the machine operations *)

Lemma wrap_small x : 0 <= x < 2 ^ 32 -> wrap x = x.
Proof. intros H. unfold wrap. apply Z.mod_small. exact H. Qed.

Lemma shiftl_1 x : Z.shiftl x 1 = 2 * x.
Proof. rewrite Z.shiftl_mul_pow2 by lia. lia. Qed.

Lemma shiftr_1 x : Z.shiftr x 1 = x / 2.
Proof. rewrite Z.shiftr_div_pow2 by lia. reflexivity. Qed.

Lemma land_pow2_small r k : 0 <= k -> 0 <= r < 2 ^ k -> Z.land r (2 ^ k) = 0.
Proof.
  intros Hk Hr. apply Z.bits_inj'. intros n Hn.
  rewrite Z.land_spec, Z.bits_0, Z.pow2_bits_eqb by lia.
  destruct (Z.eqb_spec k n) as [->|Hne].
  - rewrite andb_true_r.
    destruct (Z.eq_dec r 0) as [->|Hr0]; [apply Z.bits_0|].
    apply Z.bits_above_log2; [lia|]. apply Z.log2_lt_pow2; lia.
  - apply andb_false_r.
Qed.

Lemma lor_pow2 r k : 0 <= k -> 0 <= r < 2 ^ k -> Z.lor r (2 ^ k) = r + 2 ^ k.
Proof.
  intros Hk Hr. pose proof (Z.add_lor_land r (2 ^ k)) as H.
  rewrite land_pow2_small in H by assumption. lia.
Qed.

Lemma pow2_double k : 0 <= k -> 2 * 2 ^ k = 2 ^ (k + 1).
Proof. intros. rewrite Z.pow_add_r by lia. lia. Qed.

Lemma pow2_le_mono j k : 0 <= j <= k -> 2 ^ j <= 2 ^ k.
Proof. intros. apply Z.pow_le_mono_r; lia. Qed.

Lemma pow2_lt_mono j k : 0 <= j < k -> 2 ^ j < 2 ^ k.
Proof. intros. apply Z.pow_lt_mono_r; lia. Qed.

Lemma pow2_pos k : 0 <= k -> 0 < 2 ^ k.
Proof. intros. apply Z.pow_pos_nonneg; lia. Qed.

(** ** The monad *)

Lemma bind_Ret {St A B} (m : M St A) (k : A -> M St B) s b s' :
  bind m k s = Ret b s' ->
  exists a s1, m s = Ret a s1 /\ k a s1 = Ret b s'.
Proof.
  unfold bind. destruct (m s) as [a s1| | |]; try discriminate.
  intros H. exists a, s1. split; [reflexivity|exact H].
Qed.

(** ** The sampler over any bit source *)

Section SamplerFacts.
Context {St : Type}.
Variable random_bit : M St Z.

Lemma add_bit_bound b r k :
  0 <= k -> 0 <= r < 2 ^ k ->
  0 <= (if b =? 1 then Z.lor r (2 ^ k) else r) < 2 ^ (k + 1).
Proof.
  intros Hk Hr. rewrite <- pow2_double by lia.
  destruct (b =? 1); [rewrite lor_pow2 by assumption|]; lia.
Qed.

Lemma grow_loop_inv fuel : forall max r rmax s r' rmax' s',
  1 <= max < 2 ^ 32 ->
  rmax = 0 \/ grow_inv max r rmax ->
  grow_loop random_bit fuel max r rmax s = Ret (r', rmax') s' ->
  grow_inv max r' rmax' /\ max <= rmax'.
Proof.
  induction fuel as [|fuel IH]; intros max r rmax s r' rmax' s' Hmax Hinv Hrun;
    simpl in Hrun; [discriminate|].
  destruct (Z.ltb_spec rmax max) as [Hlt|Hge].
  - apply bind_Ret in Hrun as (b & s1 & _ & Hrun).
    apply IH in Hrun; [exact Hrun|exact Hmax|].
    destruct Hinv as [->|(k & Hk & -> & Hr & Hsmall)]; [left; reflexivity|].
    rewrite shiftl_1.
    destruct (Z.eq_dec k 31) as [->|Hk31]; [left; reflexivity|].
    right. exists (k + 1). rewrite pow2_double by lia.
    assert (2 ^ (k + 1) <= 2 ^ 31) by (apply pow2_le_mono; lia).
    rewrite wrap_small by (pose proof (pow2_pos (k + 1)); lia).
    repeat split; try lia.
    + apply add_bit_bound; lia.
    + apply add_bit_bound; lia.
    + intros j Hj. destruct (Z.eq_dec j k) as [->|]; [exact Hlt|].
      apply Hsmall. lia.
  - inversion Hrun; subst.
    destruct Hinv as [->|Hinv]; [lia|]. split; [exact Hinv|lia].
Qed.

Lemma grow_inv_start max : grow_inv max 0 1.
Proof. exists 0. repeat split; try lia. Qed.

Lemma grow_inv_cap max r rmax :
  grow_inv max r rmax -> max <= 2 ^ MAX_RAND_BITS -> rmax <= 2 ^ MAX_RAND_BITS.
Proof.
  intros (k & Hk & -> & _ & Hsmall) Hmax. unfold MAX_RAND_BITS in *.
  destruct (Z.le_gt_cases k 28) as [Hle|Hgt]; [apply pow2_le_mono; lia|].
  specialize (Hsmall 28). lia.
Qed.

Lemma reject_inv_start max r rmax :
  1 <= max -> grow_inv max r rmax -> max <= rmax ->
  reject_inv max r rmax (rmax mod max).
Proof.
  intros Hmax Hg Hle. pose proof (grow_inv_cap _ _ _ Hg) as Hcap.
  destruct Hg as (k & Hk & -> & Hr & _).
  exists k. repeat split; try assumption; try lia.
Qed.

Lemma reject_inv_no_wrap max r rmax defect :
  1 <= max -> reject_inv max r rmax defect ->
  wrap (rmax - defect) = rmax - defect /\ 0 <= defect < max.
Proof.
  intros Hmax (k & Hk & -> & Hr & Hle & -> & _).
  pose proof (Z.mod_pos_bound (2 ^ k) max ltac:(lia)) as Hd.
  assert (2 ^ k <= 2 ^ 31) by (apply pow2_le_mono; lia).
  split; [apply wrap_small|]; lia.
Qed.

(** One pass through the body of the second loop keeps its invariant,
    whatever the bit. *)
Lemma reject_step_inv max r rmax defect b :
  1 <= max -> reject_inv max r rmax defect ->
  let r' := if b =? 1 then Z.lor r rmax else r in
  if rmax <? Z.shiftl 1 MAX_RAND_BITS
  then reject_inv max r' (wrap (Z.shiftl rmax 1))
                  (wrap (Z.shiftl rmax 1) mod max)
  else reject_inv max (Z.shiftr r' 1) rmax defect.
Proof.
  intros Hmax (k & Hk & -> & Hr & Hle & -> & Hcap) r'.
  pose proof (add_bit_bound b r k ltac:(lia) Hr) as Hr'. fold r' in Hr'.
  rewrite <- pow2_double in Hr' by lia.
  change (Z.shiftl 1 MAX_RAND_BITS) with (2 ^ 28).
  destruct (Z.ltb_spec (2 ^ k) (2 ^ 28)) as [Hlt|Hge].
  - assert (k < 28) by (apply (Z.pow_lt_mono_r_iff 2); lia).
    assert (2 ^ (k + 1) <= 2 ^ 28) by (apply pow2_le_mono; lia).
    rewrite shiftl_1, pow2_double by lia.
    rewrite wrap_small by (pose proof (pow2_pos (k + 1)); lia).
    pose proof (pow2_double k ltac:(lia)) as Hdbl.
    exists (k + 1). unfold MAX_RAND_BITS. repeat split; lia.
  - exists k. rewrite shiftr_1. repeat split; lia.
Qed.

Lemma reject_loop_inv fuel : forall max r rmax defect s r' rmax' s',
  1 <= max ->
  reject_inv max r rmax defect ->
  reject_loop random_bit fuel max r rmax defect s = Ret (r', rmax') s' ->
  reject_inv max r' rmax' (rmax' mod max) /\ r' < rmax' - rmax' mod max.
Proof.
  induction fuel as [|fuel IH];
    intros max r rmax defect s r' rmax' s' Hmax Hinv Hrun;
    simpl in Hrun; [discriminate|].
  destruct (reject_inv_no_wrap _ _ _ _ Hmax Hinv) as [Hw Hd].
  rewrite Hw in Hrun.
  destruct (Z.leb_spec (rmax - defect) r) as [Hrej|Hacc].
  - apply bind_Ret in Hrun as (b & s1 & _ & Hrun).
    pose proof (reject_step_inv max r rmax defect b Hmax Hinv) as Hstep.
    cbv zeta in Hstep.
    destruct (rmax <? Z.shiftl 1 MAX_RAND_BITS);
      apply IH in Hrun; assumption.
  - inversion Hrun; subst.
    assert (defect = rmax' mod max) as <-
      by (destruct Hinv as (k & _ & _ & _ & _ & Hdef & _); exact Hdef).
    split; [exact Hinv|lia].
Qed.

(** The accepted candidate, divided by the bucket width, is an index
    below [max]; the bucket width is at least one. *)
Lemma accepted_quotient max r rmax :
  1 <= max -> reject_inv max r rmax (rmax mod max) ->
  r < rmax - rmax mod max ->
  1 <= rmax / max /\ 0 <= r / (rmax / max) < max.
Proof.
  intros Hmax (k & Hk & -> & Hr & Hle & _ & _) Hacc.
  assert (1 <= 2 ^ k / max) as Hq
    by (apply Z.div_le_lower_bound; lia).
  split; [exact Hq|]. split; [apply Z.div_pos; lia|].
  apply Z.div_lt_upper_bound; [lia|].
  pose proof (Z.div_mod (2 ^ k) max ltac:(lia)). lia.
Qed.

(** A value returned is the bucket of an accepted candidate. *)
Lemma secure_random_accepts fuel max s v s' :
  1 <= max < 2 ^ 32 ->
  secure_random random_bit fuel max s = Ret v s' ->
  exists r rmax,
    reject_inv max r rmax (rmax mod max) /\ r < rmax - rmax mod max /\
    v = r / (rmax / max).
Proof.
  intros Hmax Hrun. unfold secure_random in Hrun.
  destruct (Z.eqb_spec max 0) as [->|_]; [lia|].
  apply bind_Ret in Hrun as ([r rmax] & s1 & Hgrow & Hrun).
  apply bind_Ret in Hrun as ([r2 rmax2] & s2 & Hrej & Hrun).
  apply grow_loop_inv in Hgrow as [Hg Hle];
    [|exact Hmax|right; apply grow_inv_start].
  apply reject_loop_inv in Hrej as [Hinv Hacc];
    [|lia|apply reject_inv_start; [lia|assumption..]].
  destruct (accepted_quotient max r2 rmax2 ltac:(lia) Hinv Hacc) as [Hq _].
  destruct (Z.eqb_spec (rmax2 / max) 0) as [Hz|_]; [lia|].
  inversion Hrun; subst. exists r2, rmax2. repeat split; assumption.
Qed.

Lemma secure_random_bounds fuel max s v s' :
  1 <= max < 2 ^ 32 ->
  secure_random random_bit fuel max s = Ret v s' ->
  0 <= v < max.
Proof.
  intros Hmax Hrun.
  destruct (secure_random_accepts _ _ _ _ _ Hmax Hrun) as (r & rmax & Hinv & Hacc & ->).
  apply accepted_quotient; [lia|assumption..].
Qed.

(** C2. Range postcondition: for every [max] from 1 up that a uint32_t
    holds, every bit source and every state in which the call returns,
    [secure_random max] returns [v] with [0 <= v < max]: [v] is
    [r / (rmax / max)] for a candidate [r] outside the biased zone,
    [0 <= r < rmax - rmax mod max], of a power of two [rmax] that is at
    least [max]. *)
Theorem secure_random_range fuel max s v s' :
  1 <= max < 2 ^ 32 ->
  secure_random random_bit fuel max s = Ret v s' ->
  0 <= v < max /\
  exists r rmax k,
    0 <= k <= 31 /\ rmax = 2 ^ k /\ max <= rmax /\
    0 <= r < rmax - rmax mod max /\ v = r / (rmax / max).
Proof.
  intros Hmax Hrun.
  destruct (secure_random_accepts _ _ _ _ _ Hmax Hrun)
    as (r & rmax & Hinv & Hacc & ->).
  split.
  - apply accepted_quotient; [lia|assumption..].
  - destruct Hinv as (k & Hk & Hpow & Hr & Hle & _).
    exists r, rmax, k. repeat split; try assumption; lia.
Qed.
End SamplerFacts.

Lemma secure_random_range_witness :
  1 <= 5 < 2 ^ 32 /\
  secure_random (stream_bit (prepend [true; true; true; false] zeros)) 8 5 0%nat
    = Ret 2 4%nat /\
  0 <= 2 < 5.
Proof.
  assert (Hrun : secure_random (stream_bit (prepend [true; true; true; false] zeros)) 8 5 0%nat
                 = Ret 2 4%nat) by reflexivity.
  split; [lia|]. split; [exact Hrun|].
  apply (secure_random_range (stream_bit (prepend [true; true; true; false] zeros))
           8 5 0%nat 2 4%nat); [lia|exact Hrun].
Defined.

(** ** The shuffle *)

Lemma insert_cons_perm (l : list Card) j c x :
  l !! j = Some c -> c :: <[j := x]> l ≡ₚ x :: l.
Proof.
  revert j. induction l as [|y l IH]; intros [|j] Hj; simpl in *;
    try discriminate.
  - injection Hj as ->. apply perm_swap.
  - rewrite perm_swap, (IH j Hj). apply perm_swap.
Qed.

Lemma swap_perm deck i j : swap deck i j ≡ₚ deck.
Proof.
  unfold swap.
  destruct (deck !! i) as [ci|] eqn:Hi; [|reflexivity].
  destruct (deck !! j) as [cj|] eqn:Hj; [|reflexivity].
  revert i j Hi Hj. induction deck as [|x l IH]; intros [|i] [|j] Hi Hj;
    simpl in *; try discriminate.
  - injection Hi as ->. injection Hj as ->. reflexivity.
  - injection Hi as ->. apply insert_cons_perm. exact Hj.
  - injection Hj as ->. apply insert_cons_perm. exact Hi.
  - apply Permutation_skip. apply IH; assumption.
Qed.

Lemma swap_length deck i j : length (swap deck i j) = length deck.
Proof.
  unfold swap. destruct (deck !! i), (deck !! j); try reflexivity.
  rewrite !length_insert. reflexivity.
Qed.

Lemma swaps_from_perm js : forall i deck, swaps_from i js deck ≡ₚ deck.
Proof.
  induction js as [|j js IH]; intros i deck; simpl; [reflexivity|].
  rewrite IH. apply swap_perm.
Qed.

Section ShuffleFacts.
Context {St : Type}.
Variable random_bit : M St Z.

Lemma swap_cards_Ret deck i j s deck' s' :
  swap_cards (St := St) deck i j s = Ret deck' s' ->
  deck' = swap deck i j /\ s' = s.
Proof.
  unfold swap_cards, swap.
  destruct (deck !! i), (deck !! j); try discriminate.
  unfold ret. intros H. inversion H. split; reflexivity.
Qed.

(** A run of the loop from index [i] is the run of its draws followed
    by the exchanges they name. *)
Lemma shuffle_from_draws fuel i : forall deck s deck' s',
  Z.of_nat i < 2 ^ 31 ->
  shuffle_from random_bit fuel i deck s = Ret deck' s' ->
  exists js, draws_from random_bit fuel i s = Ret js s' /\
             length js = i /\ draws_in_range i js /\
             deck' = swaps_from i js deck.
Proof.
  induction i as [|i IH]; intros deck s deck' s' Hi Hrun; simpl in Hrun.
  - inversion Hrun; subst. exists []. repeat split.
  - apply bind_Ret in Hrun as (j & s1 & Hdraw & Hrun).
    apply bind_Ret in Hrun as (deck1 & s2 & Hswap & Hrun).
    apply swap_cards_Ret in Hswap as [-> ->].
    apply IH in Hrun as (js & Hjs & Hlen & Hrange & ->); [|lia].
    exists (Z.to_nat j :: js). simpl draws_from. unfold bind at 1.
    rewrite Hdraw. unfold bind at 1. rewrite Hjs.
    assert (wrap (Z.of_nat (S i) + 1) = Z.of_nat (S i) + 1) as Hw
      by (apply wrap_small; lia).
    rewrite Hw in Hdraw.
    apply secure_random_bounds in Hdraw; [|lia].
    repeat split; simpl; try lia. exact Hrange.
Qed.

Lemma swap_cards_in_bounds deck i j (s : St) :
  (i < length deck)%nat -> (j < length deck)%nat ->
  swap_cards deck i j s = Ret (swap deck i j) s.
Proof.
  intros Hi Hj. unfold swap_cards, swap.
  destruct (lookup_lt_is_Some_2 deck i Hi) as [ci ->].
  destruct (lookup_lt_is_Some_2 deck j Hj) as [cj ->].
  reflexivity.
Qed.

(** Conversely, where the draws return, the loop returns: no access
    leaves the deck. *)
Lemma draws_shuffle_from fuel i : forall deck s js s',
  (i < length deck)%nat -> Z.of_nat i < 2 ^ 31 ->
  draws_from random_bit fuel i s = Ret js s' ->
  shuffle_from random_bit fuel i deck s = Ret (swaps_from i js deck) s' /\
  length js = i /\ draws_in_range i js.
Proof.
  induction i as [|i IH]; intros deck s js s' Hlen Hi Hrun; simpl in Hrun.
  - inversion Hrun; subst. repeat split.
  - apply bind_Ret in Hrun as (j & s1 & Hdraw & Hrun).
    apply bind_Ret in Hrun as (js1 & s2 & Hjs & Hrun).
    inversion Hrun; subst. clear Hrun.
    simpl shuffle_from. unfold bind at 1. rewrite Hdraw.
    rewrite (wrap_small (Z.of_nat (S i) + 1)) in Hdraw by lia.
    apply secure_random_bounds in Hdraw; [|lia].
    unfold bind at 1.
    rewrite swap_cards_in_bounds by lia.
    apply (IH (swap deck (S i) (Z.to_nat j))) in Hjs as (Hsh & Hn & Hr);
      [|rewrite swap_length; lia|lia].
    repeat split; try lia; simpl; try lia; assumption.
Qed.

(** C5. For every 52-card deck and every state from which the 51 draws
    [secure_random (i + 1)], for [i] from 51 down to 1, all return:
    [shuffle_deck] returns, having exchanged positions [i] and [j] for
    each draw [j] in this order, each [j] being at most [i]; it leaves
    the state the draws leave, and a deck of the same length that is a
    permutation of the one it was given. *)
Theorem shuffle_deck_permutation fuel deck s js s' :
  length deck = DECK_SIZE ->
  draws_from random_bit fuel (DECK_SIZE - 1) s = Ret js s' ->
  shuffle_deck random_bit fuel deck s
    = Ret (swaps_from (DECK_SIZE - 1) js deck) s' /\
  length js = 51%nat /\ draws_in_range 51 js /\
  swaps_from (DECK_SIZE - 1) js deck ≡ₚ deck /\
  length (swaps_from (DECK_SIZE - 1) js deck) = DECK_SIZE.
Proof.
  intros Hlen Hrun. unfold shuffle_deck.
  apply (draws_shuffle_from fuel _ deck) in Hrun as (Hsh & Hn & Hr);
    [|rewrite Hlen; unfold DECK_SIZE; lia|unfold DECK_SIZE; lia].
  repeat split; try assumption.
  - apply swaps_from_perm.
  - rewrite <- Hlen. apply Permutation_length, swaps_from_perm.
Qed.
End ShuffleFacts.

Lemma shuffle_deck_permutation_witness :
  exists js s',
    length init_deck = DECK_SIZE /\
    draws_from (stream_bit (prepend [true; true; false; false; true] zeros))
               40 (DECK_SIZE - 1) 0%nat = Ret js s' /\
    swaps_from (DECK_SIZE - 1) js init_deck ≡ₚ init_deck.
Proof.
  destruct (draws_from (stream_bit (prepend [true; true; false; false; true] zeros))
              40 (DECK_SIZE - 1) 0%nat) as [js s'| | |] eqn:Hrun;
    try (vm_compute in Hrun; discriminate).
  exists js, s'. split; [reflexivity|]. split; [reflexivity|].
  apply (shuffle_deck_permutation
           (stream_bit (prepend [true; true; false; false; true] zeros))
           40 init_deck 0%nat js s'); [reflexivity|exact Hrun].
Defined.

(** ** The two edge cases of the range *)

(** C6. In every state of the entropy buffer, [secure_random 1] returns
    0 and leaves the state as it found it: neither loop body runs, no bit
    is taken and nothing is read from the device. *)
Theorem secure_random_one (fuel : nat) (e : entropy) :
  secure_random secure_random_bit (S fuel) 1 e = Ret 0 e.
Proof. reflexivity. Qed.

(** C9. In every state of the entropy buffer, [secure_random 0] ends the
    process with status 1 and its diagnostic on stderr; it returns no
    value, and the state at exit is the state at the call: no bit was
    taken. *)
Theorem secure_random_zero (fuel : nat) (e : entropy) :
  secure_random secure_random_bit fuel 0 e
    = Exit 1 "secure_random() called with max == 0" e.
Proof. reflexivity. Qed.

(** ** The sampler on a stream of bits *)

Section StreamFacts.
Variable bits : nat -> bool.

Lemma bind_stream_bit {B} (k : Z -> M nat B) p :
  bind (stream_bit bits) k p = k (if bits p then 1 else 0) (S p).
Proof. reflexivity. Qed.

(** Above 2^31 the doubling of [rmax] wraps to 0 before it reaches
    [max], and the first loop never ends. *)
Lemma grow_loop_wrapped fuel : forall max r rmax p,
  2 ^ 31 < max ->
  rmax = 0 \/ (exists k, 0 <= k <= 31 /\ rmax = 2 ^ k) ->
  grow_loop (stream_bit bits) fuel max r rmax p = OutOfFuel.
Proof.
  induction fuel as [|fuel IH]; intros max r rmax p Hmax Hinv; simpl;
    [reflexivity|].
  assert (rmax < max) as Hlt.
  { destruct Hinv as [->|(k & Hk & ->)]; [lia|].
    pose proof (pow2_le_mono k 31 ltac:(lia)). lia. }
  apply Z.ltb_lt in Hlt. rewrite Hlt, bind_stream_bit.
  apply IH; [exact Hmax|]. rewrite shiftl_1.
  destruct Hinv as [->|(k & Hk & ->)]; [left; reflexivity|].
  destruct (Z.eq_dec k 31) as [->|Hne]; [left; reflexivity|].
  right. exists (k + 1). rewrite pow2_double by lia.
  pose proof (pow2_le_mono (k + 1) 31 ltac:(lia)).
  pose proof (pow2_pos (k + 1) ltac:(lia)).
  rewrite wrap_small by lia. split; [lia|reflexivity].
Qed.

(** Up to 2^31 it ends, after one bit for each doubling. *)
Lemma grow_loop_returns d : forall fuel max r rmax p,
  0 < rmax -> max <= rmax * 2 ^ Z.of_nat d -> rmax * 2 ^ Z.of_nat d <= 2 ^ 31 ->
  (d < fuel)%nat ->
  exists r' n,
    grow_loop (stream_bit bits) fuel max r rmax p
      = Ret (r', rmax * 2 ^ Z.of_nat n) (p + n)%nat /\ (n <= d)%nat.
Proof.
  induction d as [|d IH]; intros [|fuel] max r rmax p Hpos Hle Hfit Hfuel;
    try lia; simpl grow_loop.
  - rewrite Z.mul_1_r in Hle.
    destruct (Z.ltb_spec rmax max); [lia|].
    exists r, 0%nat. rewrite Z.mul_1_r, Nat.add_0_r. split; [reflexivity|lia].
  - destruct (Z.ltb_spec rmax max) as [Hlt|Hge].
    + rewrite bind_stream_bit, shiftl_1.
      rewrite Nat2Z.inj_succ, Z.pow_succ_r in Hle, Hfit by lia.
      pose proof (pow2_pos (Z.of_nat d) ltac:(lia)) as Hp.
      rewrite wrap_small by nia.
      destruct (IH fuel max
                  (if (if bits p then 1 else 0) =? 1 then Z.lor r rmax else r)
                  (2 * rmax) (S p)) as (r' & n & Hrun & Hn); try lia.
      exists r', (S n). rewrite Hrun. split; [|lia].
      rewrite Nat2Z.inj_succ, Z.pow_succ_r by lia.
      f_equal; [f_equal; lia|lia].
    + exists r, 0%nat. rewrite Z.mul_1_r, Nat.add_0_r. split; [reflexivity|lia].
Qed.

(** The width-growing phase for [max] up to 2^31: the loop ends with
    [rmax = 2^k] the smallest power of two that reaches [max], having
    taken [k] bits, and with [r] below [rmax]. *)
Lemma grow_phase fuel max :
  1 <= max <= 2 ^ 31 -> (32 <= fuel)%nat ->
  exists r k,
    grow_loop (stream_bit bits) fuel max 0 1 0%nat
      = Ret (r, 2 ^ Z.of_nat k) k /\
    0 <= r < 2 ^ Z.of_nat k /\ max <= 2 ^ Z.of_nat k /\
    forall j, 0 <= j < Z.of_nat k -> 2 ^ j < max.
Proof.
  intros Hmax Hfuel.
  destruct (grow_loop_returns 31 fuel max 0 1 0%nat) as (r & n & Hrun & Hn);
    try lia.
  rewrite Z.mul_1_l in Hrun. simpl Nat.add in Hrun.
  exists r, n. split; [exact Hrun|].
  apply grow_loop_inv in Hrun as [(k & Hk & Hpow & Hr & Hsmall) Hle];
    [|lia|right; apply grow_inv_start].
  apply Z.pow_inj_r in Hpow; [|lia..]. subst k.
  repeat split; try lia. exact Hsmall.
Qed.

(** After a 0 bit the candidate is outside the biased zone, in the
    growing branch and in the capped one. *)
Lemma zero_bit_accepts max r rmax defect :
  1 <= max -> reject_inv max r rmax defect ->
  if rmax <? Z.shiftl 1 MAX_RAND_BITS
  then r < wrap (Z.shiftl rmax 1) - wrap (Z.shiftl rmax 1) mod max
  else Z.shiftr r 1 < rmax - defect.
Proof.
  intros Hmax (k & Hk & -> & Hr & Hle & -> & Hcap).
  change (Z.shiftl 1 MAX_RAND_BITS) with (2 ^ 28).
  destruct (Z.ltb_spec (2 ^ k) (2 ^ 28)) as [Hlt|Hge].
  - rewrite shiftl_1. rewrite wrap_small by lia.
    pose proof (Z.mod_pos_bound (2 * 2 ^ k) max ltac:(lia)). lia.
  - rewrite shiftr_1.
    pose proof (Z.mod_pos_bound (2 ^ k) max ltac:(lia)) as Hd.
    pose proof (Z.div_mod (2 ^ k) max ltac:(lia)) as Hdm.
    assert (1 <= 2 ^ k / max) as Hq by (apply Z.div_le_lower_bound; lia).
    apply Z.div_lt_upper_bound; [lia|].
    destruct (Z.le_gt_cases (2 * max) (2 ^ k)); nia.
Qed.

Lemma reject_loop_accepts fuel max r rmax defect p :
  1 <= max -> reject_inv max r rmax defect -> r < rmax - defect ->
  reject_loop (stream_bit bits) (S fuel) max r rmax defect p = Ret (r, rmax) p.
Proof.
  intros Hmax Hinv Hacc. simpl.
  destruct (reject_inv_no_wrap _ _ _ _ Hmax Hinv) as [-> _].
  destruct (Z.leb_spec (rmax - defect) r); [lia|reflexivity].
Qed.

(** The second loop ends no later than at the first 0 bit. *)
Lemma reject_loop_returns d : forall fuel max r rmax defect p,
  1 <= max -> reject_inv max r rmax defect ->
  bits (p + d) = false -> (d + 1 < fuel)%nat ->
  exists r' rmax' n,
    reject_loop (stream_bit bits) fuel max r rmax defect p
      = Ret (r', rmax') (p + n)%nat /\ (n <= d + 1)%nat.
Proof.
  induction d as [|d IH]; intros [|fuel] max r rmax defect p Hmax Hinv Hz Hfuel;
    try lia.
  all: destruct (Z.lt_ge_cases r (rmax - defect)) as [Hacc|Hrej];
    [exists r, rmax, 0%nat; rewrite Nat.add_0_r;
     split; [apply reject_loop_accepts; assumption|lia]|].
  all: simpl reject_loop;
    destruct (reject_inv_no_wrap _ _ _ _ Hmax Hinv) as [-> _];
    destruct (Z.leb_spec (rmax - defect) r) as [_|?]; [|lia];
    rewrite bind_stream_bit;
    pose proof (reject_step_inv max r rmax defect
                  (if bits p then 1 else 0) Hmax Hinv) as Hstep;
    pose proof (zero_bit_accepts max r rmax defect Hmax Hinv) as Hzero;
    cbv zeta in Hstep |- *;
    destruct (bits p) eqn:Hb.
  - rewrite Nat.add_0_r in Hz. congruence.
  - change (0 =? 1) with false in *. cbv iota in *.
    destruct fuel as [|fuel]; [lia|].
    destruct (rmax <? Z.shiftl 1 MAX_RAND_BITS);
      rewrite reject_loop_accepts by assumption;
      eexists _, _, 1%nat; (split; [rewrite Nat.add_1_r; reflexivity|lia]).
  - replace (p + S d)%nat with (S p + d)%nat in Hz by lia.
    change (1 =? 1) with true in *. cbv iota in *.
    destruct (rmax <? Z.shiftl 1 MAX_RAND_BITS);
      (edestruct (IH fuel) as (r' & rmax' & n & Hrun & Hn);
       [exact Hmax|exact Hstep|exact Hz|lia|]);
      exists r', rmax', (S n); rewrite Hrun;
      (split; [f_equal; lia|lia]).
  - change (0 =? 1) with false in *. cbv iota in *.
    destruct fuel as [|fuel]; [lia|].
    destruct (rmax <? Z.shiftl 1 MAX_RAND_BITS);
      rewrite reject_loop_accepts by assumption;
      eexists _, _, 1%nat; (split; [rewrite Nat.add_1_r; reflexivity|lia]).
Qed.

(** C3, as amended. For every [max] from 1 to 2^MAX_RAND_BITS and
    every stream with a 0 bit at an index [z] that the first loop does
    not reach ([max <= 2^z]): the first loop ends after [k] bits, the
    rejection loop that starts there ends no later than with bit [z],
    [rmax] never grows beyond 2^MAX_RAND_BITS, and [secure_random]
    returns. *)
Theorem reject_loop_ends_at_zero_bit fuel max z :
  1 <= max <= 2 ^ MAX_RAND_BITS ->
  max <= 2 ^ Z.of_nat z -> bits z = false -> (z + 33 <= fuel)%nat ->
  exists r k r' rmax' p',
    grow_loop (stream_bit bits) fuel max 0 1 0%nat
      = Ret (r, 2 ^ Z.of_nat k) k /\
    reject_loop (stream_bit bits) fuel max r (2 ^ Z.of_nat k)
                (2 ^ Z.of_nat k mod max) k = Ret (r', rmax') p' /\
    (k <= p' <= S z)%nat /\ rmax' <= 2 ^ MAX_RAND_BITS /\
    secure_random (stream_bit bits) fuel max 0%nat
      = Ret (r' / (rmax' / max)) p'.
Proof.
  intros Hmax Hz Hbit Hfuel.
  assert (2 ^ MAX_RAND_BITS <= 2 ^ 31) as H31 by (unfold MAX_RAND_BITS; lia).
  destruct (grow_phase fuel max) as (r & k & Hgrow & Hr & Hle & Hsmall);
    [lia..|].
  assert (k <= z)%nat as Hkz.
  { destruct (Nat.le_gt_cases k z) as [|Hgt]; [assumption|].
    specialize (Hsmall (Z.of_nat z)). lia. }
  assert (reject_inv max r (2 ^ Z.of_nat k) (2 ^ Z.of_nat k mod max)) as Hinv.
  { apply reject_inv_start; [lia| |exact Hle].
    pose proof Hgrow as Hg. apply grow_loop_inv in Hg as [Hg _];
      [exact Hg|lia|right; apply grow_inv_start]. }
  destruct (reject_loop_returns (z - k) fuel max r (2 ^ Z.of_nat k)
              (2 ^ Z.of_nat k mod max) k)
    as (r' & rmax' & n & Hrej & Hn); try lia; try assumption.
  { replace (k + (z - k))%nat with z by lia. exact Hbit. }
  exists r, k, r', rmax', (k + n)%nat.
  split; [exact Hgrow|]. split; [exact Hrej|]. split; [lia|].
  pose proof Hrej as Hpost.
  apply reject_loop_inv in Hpost as [Hinv' Hacc]; [|lia|exact Hinv].
  destruct (accepted_quotient max r' rmax' ltac:(lia) Hinv' Hacc) as [Hq _].
  split.
  - destruct Hinv' as (k' & _ & _ & _ & _ & _ & Hcap). apply Hcap. lia.
  - unfold secure_random.
    destruct (Z.eqb_spec max 0) as [?|_]; [lia|].
    unfold bind. rewrite Hgrow, Hrej.
    destruct (Z.eqb_spec (rmax' / max) 0) as [?|_]; [lia|reflexivity].
Qed.

(** Above 2^31 the first loop of [secure_random] is still running
    whatever the number of iterations allowed, and so is
    [secure_random]. *)
Lemma grow_loop_never_ends_above_2_31 fuel max p :
  2 ^ 31 < max < 2 ^ 32 ->
  grow_loop (stream_bit bits) fuel max 0 1 p = OutOfFuel /\
  secure_random (stream_bit bits) fuel max p = OutOfFuel.
Proof.
  intros Hmax.
  assert (grow_loop (stream_bit bits) fuel max 0 1 p = OutOfFuel) as Hgrow.
  { apply grow_loop_wrapped; [lia|]. right. exists 0. split; [lia|reflexivity]. }
  split; [exact Hgrow|]. unfold secure_random.
  destruct (Z.eqb_spec max 0) as [?|_]; [lia|].
  unfold bind. rewrite Hgrow. reflexivity.
Qed.
End StreamFacts.

Lemma reject_loop_ends_at_zero_bit_witness :
  exists r k r' rmax' p',
    grow_loop (stream_bit (prepend [true; true; true; false] ones)) 36 3 0 1 0%nat
      = Ret (r, 2 ^ Z.of_nat k) k /\
    reject_loop (stream_bit (prepend [true; true; true; false] ones)) 36 3 r
                (2 ^ Z.of_nat k) (2 ^ Z.of_nat k mod 3) k = Ret (r', rmax') p' /\
    (k <= p' <= 4)%nat /\ rmax' <= 2 ^ MAX_RAND_BITS /\
    secure_random (stream_bit (prepend [true; true; true; false] ones)) 36 3 0%nat
      = Ret (r' / (rmax' / 3)) p'.
Proof.
  apply (reject_loop_ends_at_zero_bit
           (prepend [true; true; true; false] ones) 36 3 3).
  - unfold MAX_RAND_BITS. lia.
  - simpl. lia.
  - reflexivity.
  - lia.
Defined.

(** C4, as stated, fails at [max = 2^31 + 1], a value a uint32_t holds:
    no power of two that fits 32 bits reaches it, [rmax] wraps to 0 and
    the first loop is still running whatever the number of iterations. *)
Lemma first_loop_runs_forever_above_2_31 :
  0 < 2147483649 < 2 ^ 32 /\
  ~ (exists fuel res p,
       grow_loop (stream_bit zeros) fuel 2147483649 0 1 0%nat = Ret res p).
Proof.
  split; [lia|]. intros (fuel & res & p & Hrun).
  rewrite (proj1 (grow_loop_never_ends_above_2_31 zeros fuel 2147483649 0%nat
                    ltac:(lia))) in Hrun.
  discriminate.
Qed.

(** ** The sampler at [max = 3] *)

Lemma pow2_mod3 k : 0 <= k -> 2 ^ k mod 3 = 1 \/ 2 ^ k mod 3 = 2.
Proof.
  revert k. apply natlike_ind; [left; reflexivity|].
  intros k Hk IH. rewrite Z.pow_succ_r, <- Zmult_mod_idemp_r by lia.
  destruct IH as [-> | ->]; [right|left]; reflexivity.
Qed.

(** The candidates the second loop can hold once the first two bits were
    both 1: all ones over the whole width, or over the width less one. *)
Lemma bucket_of_half k :
  2 <= k <= 28 -> (2 ^ (k - 1) - 1) / (2 ^ k / 3) = 1.
Proof.
  intros Hk.
  assert (exists n, k = 2 + Z.of_nat n /\ (n <= 26)%nat) as (n & -> & Hn)
    by (exists (Z.to_nat (k - 2)); lia).
  do 27 (destruct n as [|n]; [reflexivity|]). lia.
Qed.

Lemma ones_step k b :
  2 <= k <= 28 ->
  let r' := if b =? 1 then Z.lor (2 ^ k - 1) (2 ^ k) else 2 ^ k - 1 in
  if 2 ^ k <? Z.shiftl 1 MAX_RAND_BITS
  then k < 28 /\ wrap (Z.shiftl (2 ^ k) 1) = 2 ^ (k + 1) /\
       r' = (if b =? 1 then 2 ^ (k + 1) - 1 else 2 ^ (k + 1 - 1) - 1)
  else k = 28 /\
       Z.shiftr r' 1 = (if b =? 1 then 2 ^ k - 1 else 2 ^ (k - 1) - 1).
Proof.
  intros Hk r'. subst r'.
  pose proof (pow2_pos k ltac:(lia)) as Hp.
  pose proof (pow2_double k ltac:(lia)) as Hd.
  pose proof (pow2_double (k - 1) ltac:(lia)) as Hd'.
  replace (k - 1 + 1) with k in Hd' by lia.
  rewrite lor_pow2 by lia.
  change (Z.shiftl 1 MAX_RAND_BITS) with (2 ^ 28).
  destruct (Z.ltb_spec (2 ^ k) (2 ^ 28)) as [Hlt|Hge].
  - assert (k < 28) by (apply (Z.pow_lt_mono_r_iff 2); lia).
    pose proof (pow2_le_mono (k + 1) 28 ltac:(lia)).
    rewrite shiftl_1, wrap_small by lia.
    replace (k + 1 - 1) with k by lia.
    repeat split; try lia. destruct (b =? 1); lia.
  - assert (k = 28) as ->.
    { destruct (Z.eq_dec k 28); [assumption|].
      pose proof (pow2_lt_mono k 28 ltac:(lia)). lia. }
    split; [reflexivity|]. destruct (b =? 1); reflexivity.
Qed.

Section ThreeFacts.
Context {St : Type}.
Variable random_bit : M St Z.

Lemma reject_loop_3_after_11 fuel : forall k r s r' rmax' s',
  2 <= k <= 28 -> r = 2 ^ k - 1 \/ r = 2 ^ (k - 1) - 1 ->
  reject_loop random_bit fuel 3 r (2 ^ k) (2 ^ k mod 3) s = Ret (r', rmax') s' ->
  r' / (rmax' / 3) = 1.
Proof.
  induction fuel as [|fuel IH]; intros k r s r' rmax' s' Hk Hr Hrun;
    simpl in Hrun; [discriminate|].
  pose proof (pow2_mod3 k ltac:(lia)) as Hmod.
  pose proof (pow2_le_mono k 28 ltac:(lia)) as Hle.
  pose proof (pow2_lt_mono 1 k ltac:(lia)) as Hge.
  pose proof (pow2_double (k - 1) ltac:(lia)) as Hd.
  replace (k - 1 + 1) with k in Hd by lia.
  rewrite wrap_small in Hrun by lia.
  destruct Hr as [-> | ->].
  - destruct (Z.leb_spec (2 ^ k - 2 ^ k mod 3) (2 ^ k - 1)); [|lia].
    apply bind_Ret in Hrun as (b & s1 & _ & Hrun).
    pose proof (ones_step k b Hk) as Hstep. cbv zeta in Hstep.
    destruct (2 ^ k <? Z.shiftl 1 MAX_RAND_BITS).
    + destruct Hstep as (Hk' & Hw & Hr'). rewrite Hw, Hr' in Hrun.
      apply IH in Hrun; [exact Hrun|lia|].
      destruct (b =? 1); [left|right]; reflexivity.
    + destruct Hstep as (-> & Hr'). rewrite Hr' in Hrun.
      apply IH in Hrun; [exact Hrun|lia|].
      destruct (b =? 1); [left|right]; reflexivity.
  - destruct (Z.leb_spec (2 ^ k - 2 ^ k mod 3) (2 ^ (k - 1) - 1)); [lia|].
    inversion Hrun; subst. apply bucket_of_half. exact Hk.
Qed.
End ThreeFacts.

Lemma reject_loop_3_ones fuel : forall k p,
  2 <= k <= 28 ->
  reject_loop (stream_bit ones) fuel 3 (2 ^ k - 1) (2 ^ k) (2 ^ k mod 3) p
    = OutOfFuel.
Proof.
  induction fuel as [|fuel IH]; intros k p Hk; simpl; [reflexivity|].
  pose proof (pow2_mod3 k ltac:(lia)) as Hmod.
  pose proof (pow2_le_mono k 28 ltac:(lia)) as Hle.
  pose proof (pow2_lt_mono 1 k ltac:(lia)) as Hge.
  rewrite (wrap_small (2 ^ k - 2 ^ k mod 3)) by lia.
  destruct (Z.leb_spec (2 ^ k - 2 ^ k mod 3) (2 ^ k - 1)); [|lia].
  rewrite bind_stream_bit. change (if ones p then 1 else 0) with 1. cbv zeta.
  pose proof (ones_step k 1 Hk) as Hstep. cbv zeta in Hstep.
  destruct (2 ^ k <? Z.shiftl 1 MAX_RAND_BITS).
  - destruct Hstep as (Hk' & Hw & Hr'). rewrite Hw, Hr'. apply IH. lia.
  - destruct Hstep as (-> & Hr'). rewrite Hr'. apply IH. lia.
Qed.

Lemma grow_loop_3 bits fuel :
  grow_loop (stream_bit bits) (S (S (S fuel))) 3 0 1 0%nat
  = Ret ((if bits 0%nat then 1 else 0) + (if bits 1%nat then 2 else 0), 4) 2%nat.
Proof.
  simpl grow_loop. rewrite bind_stream_bit.
  change (1 <? 3) with true. cbv iota zeta. rewrite bind_stream_bit.
  destruct (bits 0%nat), (bits 1%nat); reflexivity.
Qed.

(** C3, as stated, fails at [max = 3] on the stream of ones: the first
    loop ends with [r = 3], [rmax = 4] after two bits, and from there the
    rejection loop is still running whatever the number of iterations. *)
Lemma reject_loop_runs_forever_on_ones :
  grow_loop (stream_bit ones) 3 3 0 1 0%nat = Ret (3, 4) 2%nat /\
  ~ (exists fuel res p,
       reject_loop (stream_bit ones) fuel 3 3 4 (4 mod 3) 2%nat = Ret res p).
Proof.
  split; [reflexivity|]. intros (fuel & res & p & Hrun).
  change 3 with (2 ^ 2 - 1) in Hrun at 2.
  change 4 with (2 ^ 2) in Hrun.
  rewrite reject_loop_3_ones in Hrun by lia. discriminate.
Qed.

(** C1, at an input where it fails. At [max = 3] the value returned is
    settled by the first two bits of the stream: 1 whenever the first bit
    is 1, and 2 or 0 otherwise; and the call does return as soon as one
    of the first three bits is 0. Half of all bit strings give 1, a
    quarter each give 0 and 2. *)
Theorem secure_random_3_biased bits fuel :
  (forall v p,
     secure_random (stream_bit bits) fuel 3 0%nat = Ret v p ->
     v = if bits 0%nat then 1 else if bits 1%nat then 2 else 0) /\
  ((3 <= fuel)%nat ->
   bits 0%nat = false \/ bits 1%nat = false \/ bits 2%nat = false ->
   exists p,
     secure_random (stream_bit bits) fuel 3 0%nat
       = Ret (if bits 0%nat then 1 else if bits 1%nat then 2 else 0) p /\
     (p <= 3)%nat).
Proof.
  split.
  - intros v p Hrun. unfold secure_random in Hrun.
    change (3 =? 0) with false in Hrun. cbv iota in Hrun.
    destruct fuel as [|[|[|fuel]]];
      try (destruct (bits 0%nat), (bits 1%nat); discriminate Hrun).
    unfold bind at 1 in Hrun. rewrite grow_loop_3 in Hrun.
    apply bind_Ret in Hrun as ([r' rmax'] & s1 & Hrej & Hrun).
    destruct (bits 0%nat), (bits 1%nat).
    + apply (reject_loop_3_after_11 _ _ 2) in Hrej; [|lia|left; reflexivity].
      destruct (rmax' / 3 =? 0); [discriminate|].
      inversion Hrun; subst. exact Hrej.
    + simpl in Hrej. inversion Hrej; subst. inversion Hrun; reflexivity.
    + simpl in Hrej. inversion Hrej; subst. inversion Hrun; reflexivity.
    + simpl in Hrej. inversion Hrej; subst. inversion Hrun; reflexivity.
  - intros Hfuel Hzero. destruct fuel as [|[|[|fuel]]]; try lia.
    unfold secure_random. change (3 =? 0) with false. cbv iota.
    unfold bind at 1. rewrite grow_loop_3.
    destruct (bits 0%nat) eqn:H0, (bits 1%nat) eqn:H1; simpl.
    + destruct (bits 2%nat) eqn:H2; [destruct Hzero as [|[|]]; discriminate|].
      unfold bind, stream_bit. rewrite H2. simpl.
      exists 3%nat. split; [reflexivity|lia].
    + exists 2%nat. split; [reflexivity|lia].
    + exists 2%nat. split; [reflexivity|lia].
    + exists 2%nat. split; [reflexivity|lia].
Qed.

Lemma secure_random_3_biased_witness :
  (exists p,
     secure_random (stream_bit (prepend [true; true; false] zeros)) 5 3 0%nat
       = Ret 1 p /\ (p <= 3)%nat) /\
  1 = (if prepend [true; true; false] zeros 0%nat then 1
       else if prepend [true; true; false] zeros 1%nat then 2 else 0).
Proof.
  split.
  - apply (proj2 (secure_random_3_biased (prepend [true; true; false] zeros) 5)).
    + lia.
    + right. right. reflexivity.
  - apply (proj1 (secure_random_3_biased (prepend [true; true; false] zeros) 5)
             1 3%nat).
    reflexivity.
Defined.

(** ** The entropy buffer *)

Lemma land_1_testbit x m :
  0 <= m -> Z.land (Z.shiftr x m) 1 = Z.b2z (Z.testbit x m).
Proof.
  intros Hm. change 1 with (Z.ones 1) at 1.
  rewrite Z.land_ones by lia. change (2 ^ 1) with 2.
  rewrite <- Z.bit0_mod, Z.shiftr_spec by lia. rewrite Z.add_0_l. reflexivity.
Qed.

Lemma take_bit_step B nw dev op n e :
  block_inv B nw dev op n e -> (n < 32 * nw)%nat -> (nw <= BUFSZ)%nat ->
  length B = BUFSZ ->
  exists e', secure_random_bit e = Ret (word_bit B n) e' /\
             block_inv B nw dev op (S n) e'.
Proof.
  intros (Hmax & Hw & Hb & Hdev & Hop & Hrest & Hcur) Hn Hnw HB.
  unfold BUFSZ in *.
  assert (n / 32 < 256)%nat as Hin by lia.
  destruct (lookup_lt_is_Some_2 B (n / 32)%nat ltac:(lia)) as [W HW].
  rewrite HW in Hcur. cbn [fmap option_fmap option_map] in Hcur.
  unfold secure_random_bit, refill_due. rewrite Hw, Hmax.
  destruct (Z.eqb_spec (Z.of_nat (n / 32)) (Z.of_nat nw)) as [?|_]; [lia|].
  unfold bind, ret, take_bit. rewrite Hw, Nat2Z.id, Hcur, Hb.
  rewrite land_1_testbit by lia.
  assert (word_bit B n = Z.b2z (Z.testbit W (Z.of_nat (n mod 32)))) as <-
    by (unfold word_bit; rewrite HW; reflexivity).
  rewrite wrap_small by lia. unfold WORD_BYTES.
  destruct (Z.eqb_spec (Z.of_nat (n mod 32) + 1) (4 * 8)) as [Heq|Hne];
    eexists; (split; [reflexivity|]).
  - assert (S n / 32 = S (n / 32) /\ S n mod 32 = 0)%nat as [Hq Hr] by lia.
    unfold block_inv. cbn [max_winx winx bcnt urandom opens rand_buf].
    rewrite Hq, Hr, wrap_small by lia.
    repeat split; try assumption; try lia.
    + intros w Hlt. rewrite list_lookup_insert_ne by lia. apply Hrest. lia.
    + rewrite list_lookup_insert_ne by lia. rewrite Hrest by lia.
      destruct (B !! S (n / 32)) as [x|]; [|reflexivity].
      cbn [fmap option_fmap option_map]. rewrite Z.shiftr_0_r. reflexivity.
  - assert (S n / 32 = n / 32 /\ S n mod 32 = S (n mod 32))%nat as [Hq Hr] by lia.
    unfold block_inv. cbn [max_winx winx bcnt urandom opens rand_buf].
    rewrite Hq, Hr, HW.
    repeat split; try assumption; try lia.
    + intros w Hlt. rewrite list_lookup_insert_ne by lia. apply Hrest. lia.
    + rewrite list_lookup_insert_eq
        by (apply lookup_lt_is_Some_1; rewrite Hcur; eauto).
      cbn [fmap option_fmap option_map].
      rewrite Z.shiftr_shiftr by lia. do 2 f_equal. lia.
Qed.

Lemma draw_bits_block B nw dev op k : forall n e,
  block_inv B nw dev op n e -> (n + k <= 32 * nw)%nat -> (nw <= BUFSZ)%nat ->
  length B = BUFSZ ->
  exists e', draw_bits secure_random_bit k e
               = Ret (map (word_bit B) (seq n k)) e' /\
             block_inv B nw dev op (n + k) e'.
Proof.
  induction k as [|k IH]; intros n e Hinv Hn Hnw HB.
  - exists e. rewrite Nat.add_0_r. split; [reflexivity|exact Hinv].
  - destruct (take_bit_step B nw dev op n e Hinv ltac:(lia) Hnw HB)
      as (e1 & Hbit & Hinv1).
    destruct (IH (S n) e1 Hinv1 ltac:(lia) Hnw HB) as (e' & Hrun & Hinv').
    exists e'. replace (n + S k)%nat with (S n + k)%nat by lia.
    split; [|exact Hinv'].
    simpl draw_bits. unfold bind at 1. rewrite Hbit.
    unfold bind at 1. rewrite Hrun. reflexivity.
Qed.

Lemma store_bytes_length bs old : length (store_bytes bs old) = BUFSZ.
Proof. unfold store_bytes. rewrite length_map, length_seq. reflexivity. Qed.

Lemma store_bytes_lookup bs old w :
  (w < BUFSZ)%nat -> store_bytes bs old !! w = Some (load_word bs old w).
Proof.
  intros Hw. unfold store_bytes.
  rewrite list_lookup_fmap, lookup_seq_lt by exact Hw. reflexivity.
Qed.

(** A read of at least one word: what [secure_random_bit] does next is
    what it does in the refilled state, where no refill is due. *)
Lemma refill_succeeds e data :
  refill_due e = true -> urandom e (opens e) = ReadBytes data ->
  (4 <= length (take BUF_BYTES data))%nat ->
  refill e = Ret tt (refilled e (take BUF_BYTES data)) /\
  secure_random_bit e = secure_random_bit (refilled e (take BUF_BYTES data)) /\
  block_inv (store_bytes (take BUF_BYTES data) (rand_buf e))
            (length (take BUF_BYTES data) / 4) (urandom e) (S (opens e))
            0 (refilled e (take BUF_BYTES data)).
Proof.
  intros Hdue Hdev Hlen.
  assert (length (take BUF_BYTES data) <= 1024)%nat as Hle
    by (rewrite length_take; unfold BUF_BYTES; lia).
  set (bs := take BUF_BYTES data) in *.
  assert (refill e = Ret tt (refilled e bs)) as Hrefill.
  { unfold refill. rewrite Hdev. fold bs. unfold WORD_BYTES.
    destruct (Z.ltb_spec (Z.of_nat (length bs)) 4) as [?|_]; [lia|].
    unfold refilled. cbn [rand_buf urandom opens].
    rewrite wrap_small by lia. do 2 f_equal. lia. }
  split; [exact Hrefill|]. split.
  - unfold secure_random_bit at 1. rewrite Hdue. unfold bind. rewrite Hrefill.
    unfold secure_random_bit, refill_due, refilled.
    cbn [winx max_winx].
    destruct (Z.eqb_spec 0 (Z.of_nat (length bs / 4))) as [?|_]; [lia|].
    reflexivity.
  - unfold block_inv, refilled. cbn [max_winx winx bcnt urandom opens rand_buf].
    change (0 / 32)%nat with 0%nat. change (0 mod 32)%nat with 0%nat.
    repeat split.
Qed.

(** *** Bytes and words *)

Lemma byte_val_bound b : 0 <= byte_val b < 256.
Proof. unfold byte_val. pose proof (Byte.to_N_bounded b). lia. Qed.

Lemma byte_high_bits x i : 0 <= x < 256 -> 8 <= i -> Z.testbit x i = false.
Proof.
  intros Hx Hi. destruct (Z.eq_dec x 0) as [->|Hne]; [apply Z.bits_0|].
  apply Z.bits_above_log2; [lia|].
  assert (Z.log2 x < 8) by (apply Z.log2_lt_pow2; lia). lia.
Qed.

(** A little-endian word, bit by bit. *)
Lemma le_word_testbit a b c d m :
  0 <= a < 256 -> 0 <= b < 256 -> 0 <= c < 256 -> 0 <= d < 256 ->
  0 <= m < 32 ->
  Z.testbit (Z.lor a (Z.lor (Z.shiftl b 8) (Z.lor (Z.shiftl c 16) (Z.shiftl d 24)))) m
  = if m <? 8 then Z.testbit a m
    else if m <? 16 then Z.testbit b (m - 8)
    else if m <? 24 then Z.testbit c (m - 16)
    else Z.testbit d (m - 24).
Proof.
  intros Ha Hb Hc Hd Hm. rewrite !Z.lor_spec, !Z.shiftl_spec by lia.
  destruct (Z.ltb_spec m 8); [|destruct (Z.ltb_spec m 16);
                                [|destruct (Z.ltb_spec m 24)]].
  - rewrite (Z.testbit_neg_r b), (Z.testbit_neg_r c), (Z.testbit_neg_r d) by lia.
    rewrite !orb_false_r. reflexivity.
  - rewrite (byte_high_bits a), (Z.testbit_neg_r c), (Z.testbit_neg_r d) by lia.
    rewrite !orb_false_r. reflexivity.
  - rewrite (byte_high_bits a), (byte_high_bits b), (Z.testbit_neg_r d) by lia.
    rewrite !orb_false_r. reflexivity.
  - rewrite (byte_high_bits a), (byte_high_bits b), (byte_high_bits c) by lia.
    reflexivity.
Qed.

Lemma mem_byte_read bs old p b :
  bs !! p = Some b -> mem_byte bs old p = byte_val b.
Proof. intros H. unfold mem_byte. rewrite H. reflexivity. Qed.

(** The bits of the words a read stores in full are the bits of its
    bytes, in the order of the bytes. *)
Lemma word_bit_store_bytes bs old i :
  (length bs <= BUF_BYTES)%nat -> (i < 32 * (length bs / 4))%nat ->
  word_bit (store_bytes bs old) i
  = byte_bit (take (4 * (length bs / 4)) bs) i.
Proof.
  unfold BUF_BYTES. intros Hlen Hi. unfold word_bit, byte_bit.
  rewrite store_bytes_lookup by (unfold BUFSZ; lia).
  rewrite lookup_take_lt by lia. cbn [default]. f_equal.
  set (w := (i / 32)%nat).
  destruct (lookup_lt_is_Some_2 bs (4 * w) ltac:(lia)) as [b0 H0].
  destruct (lookup_lt_is_Some_2 bs (4 * w + 1) ltac:(lia)) as [b1 H1].
  destruct (lookup_lt_is_Some_2 bs (4 * w + 2) ltac:(lia)) as [b2 H2].
  destruct (lookup_lt_is_Some_2 bs (4 * w + 3) ltac:(lia)) as [b3 H3].
  unfold load_word.
  rewrite (mem_byte_read _ _ _ _ H0), (mem_byte_read _ _ _ _ H1),
    (mem_byte_read _ _ _ _ H2), (mem_byte_read _ _ _ _ H3).
  unfold id. rewrite le_word_testbit by (try apply byte_val_bound; lia).
  destruct (Z.ltb_spec (Z.of_nat (i mod 32)) 8);
    [|destruct (Z.ltb_spec (Z.of_nat (i mod 32)) 16);
      [|destruct (Z.ltb_spec (Z.of_nat (i mod 32)) 24)]].
  - replace (i / 8)%nat with (4 * w)%nat by lia. rewrite H0.
    cbn [fmap option_fmap option_map default]. unfold id. f_equal. lia.
  - replace (i / 8)%nat with (4 * w + 1)%nat by lia. rewrite H1.
    cbn [fmap option_fmap option_map default]. unfold id. f_equal. lia.
  - replace (i / 8)%nat with (4 * w + 2)%nat by lia. rewrite H2.
    cbn [fmap option_fmap option_map default]. unfold id. f_equal. lia.
  - replace (i / 8)%nat with (4 * w + 3)%nat by lia. rewrite H3.
    cbn [fmap option_fmap option_map default]. unfold id. f_equal. lia.
Qed.

(** *** Refill and failure *)

(** A call made when a refill is due opens the device once, whatever
    follows; it has no undefined outcome. *)
Lemma refill_call_opens e :
  refill_due e = true ->
  opens_after (secure_random_bit e) = Some (S (opens e)).
Proof.
  intros Hdue.
  destruct (urandom e (opens e)) as [| |data] eqn:Hdev.
  - unfold secure_random_bit, bind, refill. rewrite Hdue, Hdev. reflexivity.
  - unfold secure_random_bit, bind, refill. rewrite Hdue, Hdev. reflexivity.
  - destruct (Nat.lt_ge_cases (length (take BUF_BYTES data)) 4) as [Hshort|Hlen].
    + unfold secure_random_bit, bind, refill. rewrite Hdue, Hdev.
      unfold WORD_BYTES.
      destruct (Z.ltb_spec (Z.of_nat (length (take BUF_BYTES data))) 4);
        [reflexivity|lia].
    + destruct (refill_succeeds e data Hdue Hdev Hlen) as (_ & -> & Hinv).
      assert (length (take BUF_BYTES data) <= 1024)%nat
        by (rewrite length_take; unfold BUF_BYTES; lia).
      destruct (take_bit_step _ _ _ _ _ _ Hinv) as (e' & -> & Hinv');
        [lia|unfold BUFSZ; lia|apply store_bytes_length|].
      destruct Hinv' as (_ & _ & _ & _ & Hop & _).
      cbn [opens_after]. rewrite Hop. reflexivity.
Qed.

Lemma block_refill_due B nw dev op n e :
  block_inv B nw dev op n e -> (n <= 32 * nw)%nat ->
  refill_due e = (n =? 32 * nw)%nat.
Proof.
  intros (Hmax & Hw & _) Hn. unfold refill_due. rewrite Hmax, Hw.
  destruct (Z.eqb_spec (Z.of_nat (n / 32)) (Z.of_nat nw));
    destruct (Nat.eqb_spec n (32 * nw)); try reflexivity; lia.
Qed.

(** The calls that follow a refill, up to the last bit of the block. *)
Lemma draw_bits_after_refill e data n :
  refill_due e = true -> urandom e (opens e) = ReadBytes data ->
  (4 <= length (take BUF_BYTES data))%nat ->
  (1 <= n <= 32 * (length (take BUF_BYTES data) / 4))%nat ->
  exists e',
    draw_bits secure_random_bit n e
      = Ret (map (word_bit (store_bytes (take BUF_BYTES data) (rand_buf e)))
                 (seq 0 n)) e' /\
    block_inv (store_bytes (take BUF_BYTES data) (rand_buf e))
              (length (take BUF_BYTES data) / 4) (urandom e) (S (opens e))
              n e'.
Proof.
  intros Hdue Hdev Hlen Hn.
  destruct (refill_succeeds e data Hdue Hdev Hlen) as (_ & Hcall & Hinv).
  assert (length (take BUF_BYTES data) <= 1024)%nat
    by (rewrite length_take; unfold BUF_BYTES; lia).
  destruct (draw_bits_block _ _ _ _ n 0%nat _ Hinv) as (e' & Hrun & Hinv');
    [lia|unfold BUFSZ; lia|apply store_bytes_length|].
  exists e'. split; [|exact Hinv'].
  destruct n as [|n]; [lia|].
  simpl draw_bits in *. unfold bind at 1. rewrite Hcall. exact Hrun.
Qed.

(** C7. When a refill is due and the read stores at least one word, the
    next [n] calls, for [n] from 1 to 32 times the number of valid words,
    return the bits of the buffered words in order: bit 0 of word 0 up to
    bit 31 of word 0, then bit 0 of word 1, and so on. They read the
    device once. After them a refill is due exactly if [n] is 32 times
    the number of valid words, and the next call reads the device exactly
    in that case. *)
Theorem bits_in_order_refill_when_consumed e data n :
  refill_due e = true -> urandom e (opens e) = ReadBytes data ->
  (4 <= length (take BUF_BYTES data))%nat ->
  (1 <= n <= 32 * (length (take BUF_BYTES data) / 4))%nat ->
  exists e',
    draw_bits secure_random_bit n e
      = Ret (map (word_bit (store_bytes (take BUF_BYTES data) (rand_buf e)))
                 (seq 0 n)) e' /\
    opens e' = S (opens e) /\
    refill_due e' = (n =? 32 * (length (take BUF_BYTES data) / 4))%nat /\
    opens_after (secure_random_bit e')
      = Some (if (n =? 32 * (length (take BUF_BYTES data) / 4))%nat
              then S (S (opens e)) else S (opens e)).
Proof.
  intros Hdue Hdev Hlen Hn.
  destruct (draw_bits_after_refill e data n Hdue Hdev Hlen Hn)
    as (e' & Hrun & Hinv).
  pose proof (block_refill_due _ _ _ _ _ _ Hinv ltac:(lia)) as Hdue'.
  assert (opens e' = S (opens e)) as Hop
    by (destruct Hinv as (_ & _ & _ & _ & Hop & _); exact Hop).
  exists e'. repeat split; try assumption.
  destruct (Nat.eqb_spec n (32 * (length (take BUF_BYTES data) / 4))) as [Heq|Hne].
  - rewrite refill_call_opens by exact Hdue'. rewrite Hop. reflexivity.
  - assert (length (take BUF_BYTES data) <= 1024)%nat
      by (rewrite length_take; unfold BUF_BYTES; lia).
    destruct (take_bit_step _ _ _ _ _ _ Hinv) as (e2 & -> & Hinv2);
      [lia|unfold BUFSZ; lia|apply store_bytes_length|].
    destruct Hinv2 as (_ & _ & _ & _ & Hop2 & _).
    cbn [opens_after]. rewrite Hop2. reflexivity.
Qed.

(** C10. When a refill is due and the read stores [rv] bytes, [rv] at
    least 4 and not a multiple of 4: [max_winx] becomes [rv / 4], the
    bits returned until the next refill are the bits of the first
    [4 * (rv / 4)] bytes alone, in order, and the next refill is due
    after exactly [32 * (rv / 4)] of them. *)
Theorem trailing_bytes_are_discarded e data n :
  refill_due e = true -> urandom e (opens e) = ReadBytes data ->
  (4 <= length (take BUF_BYTES data))%nat ->
  (length (take BUF_BYTES data) mod 4 <> 0)%nat ->
  (1 <= n <= 32 * (length (take BUF_BYTES data) / 4))%nat ->
  exists e',
    draw_bits secure_random_bit n e
      = Ret (map (byte_bit (take (4 * (length (take BUF_BYTES data) / 4))
                                 (take BUF_BYTES data)))
                 (seq 0 n)) e' /\
    max_winx e' = Z.of_nat (length (take BUF_BYTES data) / 4) /\
    opens e' = S (opens e) /\
    refill_due e' = (n =? 32 * (length (take BUF_BYTES data) / 4))%nat.
Proof.
  intros Hdue Hdev Hlen _ Hn.
  destruct (draw_bits_after_refill e data n Hdue Hdev Hlen Hn)
    as (e' & Hrun & Hinv).
  pose proof (block_refill_due _ _ _ _ _ _ Hinv ltac:(lia)) as Hdue'.
  exists e'. split; [|split; [|split]].
  - rewrite Hrun. f_equal. apply map_ext_in. intros i Hin.
    apply in_seq in Hin. apply word_bit_store_bytes; [|lia].
    rewrite length_take. lia.
  - destruct Hinv as (Hmax & _); exact Hmax.
  - destruct Hinv as (_ & _ & _ & _ & Hop & _); exact Hop.
  - exact Hdue'.
Qed.

(** C8. When a refill is due and the device cannot be opened, or the
    read fails or stores fewer than 4 bytes, [secure_random_bit] ends the
    process with status 1 and the diagnostic of the failed call; it
    returns no bit, and it has opened the device once. *)
Theorem entropy_failure_is_fatal e :
  refill_due e = true ->
  (urandom e (opens e) = OpenFailed ->
   exists e', secure_random_bit e = Exit 1 "open" e' /\
              opens e' = S (opens e)) /\
  (urandom e (opens e) = ReadFailed ->
   exists e', secure_random_bit e = Exit 1 "read" e' /\
              opens e' = S (opens e)) /\
  (forall data, urandom e (opens e) = ReadBytes data ->
                (length (take BUF_BYTES data) < 4)%nat ->
   exists e', secure_random_bit e = Exit 1 "read" e' /\
              opens e' = S (opens e)).
Proof.
  intros Hdue. unfold secure_random_bit, bind, refill. rewrite Hdue.
  split; [|split].
  - intros ->. eexists. split; reflexivity.
  - intros ->. eexists. split; reflexivity.
  - intros data -> Hshort. unfold WORD_BYTES.
    destruct (Z.ltb_spec (Z.of_nat (length (take BUF_BYTES data))) 4); [|lia].
    eexists. split; reflexivity.
Qed.

(** *** Concrete runs *)

Lemma bits_in_order_refill_when_consumed_witness :
  exists e',
    draw_bits secure_random_bit 32 (entropy_init six_byte_dev)
      = Ret (map (word_bit (store_bytes (take BUF_BYTES six_bytes)
                                        (rand_buf (entropy_init six_byte_dev))))
                 (seq 0 32)) e' /\
    opens e' = 1%nat /\
    refill_due e' = (32 =? 32 * (length (take BUF_BYTES six_bytes) / 4))%nat /\
    opens_after (secure_random_bit e')
      = Some (if (32 =? 32 * (length (take BUF_BYTES six_bytes) / 4))%nat
              then 2%nat else 1%nat).
Proof.
  apply (bits_in_order_refill_when_consumed
           (entropy_init six_byte_dev) six_bytes 32).
  - reflexivity.
  - reflexivity.
  - vm_compute. lia.
  - vm_compute. lia.
Defined.

Lemma trailing_bytes_are_discarded_witness :
  exists e',
    draw_bits secure_random_bit 32 (entropy_init six_byte_dev)
      = Ret (map (byte_bit (take (4 * (length (take BUF_BYTES six_bytes) / 4))
                                 (take BUF_BYTES six_bytes)))
                 (seq 0 32)) e' /\
    max_winx e' = Z.of_nat (length (take BUF_BYTES six_bytes) / 4) /\
    opens e' = 1%nat /\
    refill_due e' = (32 =? 32 * (length (take BUF_BYTES six_bytes) / 4))%nat.
Proof.
  apply (trailing_bytes_are_discarded
           (entropy_init six_byte_dev) six_bytes 32).
  - reflexivity.
  - reflexivity.
  - vm_compute. lia.
  - vm_compute. lia.
  - vm_compute. lia.
Defined.

Lemma entropy_failure_is_fatal_witness :
  (exists e', secure_random_bit (entropy_init (fun _ => OpenFailed))
                = Exit 1 "open" e' /\ opens e' = 1%nat) /\
  (exists e', secure_random_bit (entropy_init (fun _ => ReadFailed))
                = Exit 1 "read" e' /\ opens e' = 1%nat) /\
  (exists e', secure_random_bit (entropy_init (fun _ => ReadBytes [x05; x00; xff]))
                = Exit 1 "read" e' /\ opens e' = 1%nat).
Proof.
  split; [|split].
  - apply (proj1 (entropy_failure_is_fatal
                    (entropy_init (fun _ => OpenFailed)) eq_refl)).
    reflexivity.
  - apply (proj1 (proj2 (entropy_failure_is_fatal
                           (entropy_init (fun _ => ReadFailed)) eq_refl))).
    reflexivity.
  - apply (proj2 (proj2 (entropy_failure_is_fatal
                           (entropy_init (fun _ => ReadBytes [x05; x00; xff]))
                           eq_refl)) [x05; x00; xff]).
    + reflexivity.
    + vm_compute. lia.
Defined.

(** ** The entropy buffer between calls *)

Lemma land_1_bit x : Z.land x 1 = 0 \/ Z.land x 1 = 1.
Proof.
  pose proof (Z.land_ones x 1 ltac:(lia)) as H.
  change (Z.ones 1) with 1 in H. change (2 ^ 1) with 2 in H. rewrite H.
  pose proof (Z.mod_pos_bound x 2). lia.
Qed.

Lemma entropy_init_wf dev : entropy_wf (entropy_init dev).
Proof.
  unfold entropy_wf, entropy_init. cbn [rand_buf winx max_winx bcnt].
  rewrite length_replicate. unfold BUFSZ. lia.
Qed.

Lemma take_bit_wf e :
  entropy_wf e -> winx e < max_winx e ->
  exists b e', take_bit e = Ret b e' /\ (b = 0 \/ b = 1) /\ entropy_wf e' /\
               opens e' = opens e /\ urandom e' = urandom e.
Proof.
  intros (Hlen & Hw & Hmax & Hb) Hlt. unfold BUFSZ in *. unfold take_bit.
  destruct (lookup_lt_is_Some_2 (rand_buf e) (Z.to_nat (winx e)) ltac:(lia))
    as [word ->].
  unfold WORD_BYTES. rewrite wrap_small by lia.
  destruct (Z.eqb_spec (bcnt e + 1) (4 * 8)); eexists _, _;
    (split; [reflexivity|]); (split; [apply land_1_bit|]);
    unfold entropy_wf; cbn [rand_buf winx max_winx bcnt opens urandom];
    rewrite length_insert; try rewrite wrap_small by lia;
    unfold BUFSZ; repeat split; lia.
Qed.

Lemma refilled_wf e bs :
  (4 <= length bs <= BUF_BYTES)%nat ->
  entropy_wf (refilled e bs) /\ winx (refilled e bs) < max_winx (refilled e bs).
Proof.
  unfold BUF_BYTES. intros Hlen. unfold entropy_wf, refilled.
  cbn [rand_buf winx max_winx bcnt]. rewrite store_bytes_length.
  unfold BUFSZ. repeat split; lia.
Qed.

(** What a call does from a state that satisfies [entropy_wf]. *)
Lemma secure_random_bit_safe e :
  entropy_wf e ->
  safe_outcome
    (fun b e' => (b = 0 \/ b = 1) /\ entropy_wf e' /\ urandom e' = urandom e /\
                 opens e' = if refill_due e then S (opens e) else opens e)
    (fun st d e' => st = 1 /\ (d = "open" \/ d = "read") /\
                    refill_due e = true /\ opens e' = S (opens e))
    (secure_random_bit e).
Proof.
  intros Hwf. unfold secure_random_bit, bind.
  destruct (refill_due e) eqn:Hdue.
  - destruct (urandom e (opens e)) as [| |data] eqn:Hdev.
    + unfold refill. rewrite Hdev. cbn. auto.
    + unfold refill. rewrite Hdev. cbn. auto.
    + destruct (Nat.lt_ge_cases (length (take BUF_BYTES data)) 4) as [Hshort|Hlen].
      * unfold refill. rewrite Hdev. unfold WORD_BYTES.
        destruct (Z.ltb_spec (Z.of_nat (length (take BUF_BYTES data))) 4);
          [|lia]. cbn. auto.
      * destruct (refill_succeeds e data Hdue Hdev Hlen) as (-> & _ & _).
        destruct (refilled_wf e (take BUF_BYTES data)) as [Hwf' Hlt].
        { rewrite length_take in *. unfold BUF_BYTES in *. lia. }
        destruct (take_bit_wf _ Hwf' Hlt) as (b & e' & -> & Hb & Hwf2 & Hop & Hdev2).
        cbn. rewrite Hop, Hdev2. auto.
  - unfold ret. unfold refill_due in Hdue. apply Z.eqb_neq in Hdue.
    pose proof Hwf as (Hlen & Hw & Hmax & Hb).
    destruct (take_bit_wf e) as (b & e' & -> & Hb' & Hwf2 & Hop & Hdev2);
      [exact Hwf|lia|].
    cbn. auto.
Qed.

Lemma take_bit_ends e : take_bit e <> OutOfFuel.
Proof.
  unfold take_bit. destruct (rand_buf e !! Z.to_nat (winx e)); [|discriminate].
  destruct (_ =? _); discriminate.
Qed.

(** A call has no loop. *)
Lemma secure_random_bit_ends e : secure_random_bit e <> OutOfFuel.
Proof.
  unfold secure_random_bit, bind. destruct (refill_due e).
  - unfold refill. destruct (urandom e (opens e)); try discriminate.
    destruct (_ <? _); [discriminate|apply take_bit_ends].
  - apply take_bit_ends.
Qed.

(** X1. From a state that satisfies [entropy_wf], as the state at
    process start does, [secure_random_bit] never indexes outside
    [rand_buf]: it returns 0 or 1 and leaves a state that satisfies
    [entropy_wf], having opened the device once if a refill was due and
    not at all otherwise; or it exits with status 1, and only when a
    refill was due. *)
Theorem secure_random_bit_keeps_buffer_in_bounds e :
  entropy_wf e ->
  match secure_random_bit e with
  | Ret b e' =>
      (b = 0 \/ b = 1) /\ entropy_wf e' /\
      opens e' = if refill_due e then S (opens e) else opens e
  | Exit st d e' => st = 1 /\ refill_due e = true
  | Undef | OutOfFuel => False
  end.
Proof.
  intros Hwf. pose proof (secure_random_bit_safe e Hwf) as Hsafe.
  destruct (secure_random_bit e) as [b e'|st d e'| |] eqn:Hcall; cbn in Hsafe.
  - destruct Hsafe as (Hb & Hwf' & _ & Hop). auto.
  - destruct Hsafe as (-> & _ & Hdue & _). auto.
  - exact Hsafe.
  - exact (secure_random_bit_ends e Hcall).
Qed.

Lemma secure_random_bit_keeps_buffer_in_bounds_witness :
  entropy_wf (entropy_init six_byte_dev) /\
  match secure_random_bit (entropy_init six_byte_dev) with
  | Ret b e' =>
      (b = 0 \/ b = 1) /\ entropy_wf e' /\
      opens e' = if refill_due (entropy_init six_byte_dev)
                 then S (opens (entropy_init six_byte_dev))
                 else opens (entropy_init six_byte_dev)
  | Exit st d e' => st = 1 /\ refill_due (entropy_init six_byte_dev) = true
  | Undef | OutOfFuel => False
  end.
Proof.
  split; [apply entropy_init_wf|].
  apply (secure_random_bit_keeps_buffer_in_bounds (entropy_init six_byte_dev)).
  apply entropy_init_wf.
Defined.

(** *** Several reads in a row *)

Lemma draw_bits_app {St} (random_bit : M St Z) a : forall b s l1 s1 l2 s2,
  draw_bits random_bit a s = Ret l1 s1 ->
  draw_bits random_bit b s1 = Ret l2 s2 ->
  draw_bits random_bit (a + b) s = Ret (l1 ++ l2) s2.
Proof.
  induction a as [|a IH]; intros b s l1 s1 l2 s2 Ha Hb; simpl in Ha.
  - inversion Ha; subst. exact Hb.
  - apply bind_Ret in Ha as (x & s' & Hx & Ha).
    apply bind_Ret in Ha as (l & s'' & Hl & Ha). inversion Ha; subst.
    simpl. unfold bind at 1. rewrite Hx. unfold bind at 1.
    rewrite (IH b s' l s1 l2 s2 Hl Hb). reflexivity.
Qed.

Lemma byte_bit_take m bs i :
  (i / 8 < m)%nat -> byte_bit (take m bs) i = byte_bit bs i.
Proof. intros Hi. unfold byte_bit. rewrite lookup_take_lt by exact Hi. reflexivity. Qed.

Lemma block_bits_length data :
  length (block_bits data) = (32 * (length (take BUF_BYTES data) / 4))%nat.
Proof. unfold block_bits. rewrite length_map, length_seq. reflexivity. Qed.

(** One whole block: from a due refill to the next. *)
Lemma draw_block e data :
  refill_due e = true -> urandom e (opens e) = ReadBytes data ->
  (4 <= length data)%nat ->
  exists e',
    draw_bits secure_random_bit (length (block_bits data)) e
      = Ret (block_bits data) e' /\
    refill_due e' = true /\ opens e' = S (opens e) /\ urandom e' = urandom e.
Proof.
  intros Hdue Hdev Hlen.
  assert (4 <= length (take BUF_BYTES data) <= 1024)%nat as Hlen'
    by (rewrite length_take; unfold BUF_BYTES; lia).
  rewrite block_bits_length.
  destruct (draw_bits_after_refill e data
              (32 * (length (take BUF_BYTES data) / 4)) Hdue Hdev)
    as (e' & Hrun & Hinv); [lia..|].
  exists e'. split; [|split; [|split]].
  - rewrite Hrun. f_equal. unfold block_bits. apply map_ext_in.
    intros i Hin. apply in_seq in Hin.
    rewrite word_bit_store_bytes by (unfold BUF_BYTES in *; lia).
    apply byte_bit_take. lia.
  - rewrite (block_refill_due _ _ _ _ _ _ Hinv) by lia. apply Nat.eqb_refl.
  - destruct Hinv as (_ & _ & _ & _ & Hop & _). exact Hop.
  - destruct Hinv as (_ & _ & _ & Hdev' & _). exact Hdev'.
Qed.

(** X2. When a refill is due and each of the next [m] reads stores at
    least 4 bytes, the calls of [secure_random_bit] return, read after
    read, the bits of the whole words of each read in the order of its
    bytes, low bit first; they open the device [m] times, and a refill is
    due again after the last of these bits. *)
Theorem bits_across_refills m : forall e,
  refill_due e = true ->
  (forall j, (j < m)%nat ->
     exists data, urandom e (opens e + j)%nat = ReadBytes data /\
                  (4 <= length data)%nat) ->
  exists e',
    draw_bits secure_random_bit
              (length (device_bits (urandom e) (opens e) m)) e
      = Ret (device_bits (urandom e) (opens e) m) e' /\
    opens e' = (opens e + m)%nat /\ refill_due e' = true.
Proof.
  induction m as [|m IH]; intros e Hdue Hreads.
  - exists e. repeat split; [lia|exact Hdue].
  - destruct (Hreads 0%nat ltac:(lia)) as (data & Hdev & Hlen).
    rewrite Nat.add_0_r in Hdev.
    destruct (draw_block e data Hdue Hdev Hlen)
      as (e1 & Hrun1 & Hdue1 & Hop1 & Hdev1).
    destruct (IH e1 Hdue1) as (e' & Hrun & Hop & Hdue').
    { intros j Hj. rewrite Hdev1, Hop1.
      replace (S (opens e) + j)%nat with (opens e + S j)%nat by lia.
      apply Hreads. lia. }
    rewrite Hdev1, Hop1 in Hrun.
    exists e'. cbn [device_bits]. rewrite Hdev, length_app.
    split; [|split; [lia|exact Hdue']].
    exact (draw_bits_app _ _ _ _ _ _ _ _ Hrun1 Hrun).
Qed.

Lemma bits_across_refills_witness :
  exists e',
    draw_bits secure_random_bit
              (length (device_bits (urandom (entropy_init six_byte_dev))
                                   (opens (entropy_init six_byte_dev)) 3))
              (entropy_init six_byte_dev)
      = Ret (device_bits (urandom (entropy_init six_byte_dev))
                         (opens (entropy_init six_byte_dev)) 3) e' /\
    opens e' = (opens (entropy_init six_byte_dev) + 3)%nat /\
    refill_due e' = true.
Proof.
  apply (bits_across_refills 3 (entropy_init six_byte_dev)).
  - reflexivity.
  - intros j _. exists six_bytes. split; [reflexivity|]. vm_compute. lia.
Defined.

(** ** The bits the sampler consumes *)

Lemma width_spec max :
  1 <= max ->
  Z.of_nat (width max) = Z.log2_up max /\
  max <= 2 ^ Z.of_nat (width max) /\
  forall i, 0 <= i < Z.of_nat (width max) -> 2 ^ i < max.
Proof.
  intros Hmax. unfold width.
  pose proof (Z.log2_up_nonneg max) as Hnn.
  rewrite Z2Nat.id by exact Hnn.
  destruct (Z.eq_dec max 1) as [->|Hne].
  - change (Z.log2_up 1) with 0. repeat split; lia.
  - pose proof (Z.log2_up_spec max ltac:(lia)) as [Hlo Hhi].
    repeat split; [exact Hhi|].
    intros i Hi. pose proof (pow2_le_mono i (Z.pred (Z.log2_up max)) ltac:(lia)).
    lia.
Qed.

Lemma width_le max d : 1 <= max -> max <= 2 ^ Z.of_nat d -> (width max <= d)%nat.
Proof.
  intros Hmax Hle. destruct (width_spec max Hmax) as (Hw & _ & _).
  apply Z.log2_up_le_pow2 in Hle; lia.
Qed.

Section StreamBits.
Variable bits : nat -> bool.

Lemma bits_value_bound k : forall p, 0 <= bits_value bits p k < 2 ^ Z.of_nat k.
Proof.
  induction k as [|k IH]; intros p; [simpl; lia|].
  cbn [bits_value]. rewrite Nat2Z.inj_succ, Z.pow_succ_r by lia.
  specialize (IH (S p)). destruct (bits p); simpl Z.b2z; lia.
Qed.

(** The first loop, bit by bit: [d] doublings from width [j] add the
    next [d] bits above the [j] bits already in [r]. *)
Lemma grow_loop_exact d : forall fuel max r j p,
  0 <= j -> 0 <= r < 2 ^ j ->
  (forall i, j <= i < j + Z.of_nat d -> 2 ^ i < max) ->
  max <= 2 ^ (j + Z.of_nat d) -> j + Z.of_nat d <= 31 -> (d < fuel)%nat ->
  grow_loop (stream_bit bits) fuel max r (2 ^ j) p
  = Ret (r + 2 ^ j * bits_value bits p d, 2 ^ (j + Z.of_nat d)) (p + d)%nat.
Proof.
  induction d as [|d IH]; intros [|fuel] max r j p Hj Hr Hsmall Hmax H31 Hfuel;
    try lia; simpl grow_loop.
  - rewrite Z.add_0_r in *. destruct (Z.ltb_spec (2 ^ j) max); [lia|].
    cbn [bits_value]. rewrite Z.mul_0_r, Z.add_0_r, Nat.add_0_r. reflexivity.
  - pose proof (Hsmall j ltac:(lia)) as Hlt.
    destruct (Z.ltb_spec (2 ^ j) max); [|lia].
    rewrite bind_stream_bit, shiftl_1, pow2_double by lia.
    pose proof (pow2_le_mono (j + 1) 31 ltac:(lia)).
    pose proof (pow2_pos (j + 1) ltac:(lia)).
    rewrite wrap_small by lia.
    rewrite (IH fuel max _ (j + 1) (S p)); try lia.
    + cbn [bits_value]. rewrite <- (pow2_double j) by lia.
      f_equal; [f_equal|lia].
      * destruct (bits p); cbn [Z.b2z];
          [change (1 =? 1) with true|change (0 =? 1) with false]; cbv iota;
          [rewrite lor_pow2 by lia|]; lia.
      * f_equal. lia.
    + apply add_bit_bound; lia.
    + intros i Hi. apply Hsmall. lia.
    + replace (j + 1 + Z.of_nat d) with (j + Z.of_nat (S d)) by lia. exact Hmax.
Qed.

(** Positions in the stream never go back, and the first loop cannot
    reach [max] on fewer bits than its width. *)
Lemma grow_loop_position fuel : forall max r rmax p r' rmax' p',
  0 <= rmax ->
  grow_loop (stream_bit bits) fuel max r rmax p = Ret (r', rmax') p' ->
  (p <= p')%nat /\ rmax' <= rmax * 2 ^ Z.of_nat (p' - p).
Proof.
  induction fuel as [|fuel IH]; intros max r rmax p r' rmax' p' Hpos Hrun;
    simpl in Hrun; [discriminate|].
  destruct (rmax <? max).
  - rewrite bind_stream_bit in Hrun.
    assert (0 <= wrap (Z.shiftl rmax 1) <= 2 * rmax) as Hw.
    { rewrite shiftl_1. unfold wrap.
      pose proof (Z.mod_pos_bound (2 * rmax) (2 ^ 32) ltac:(lia)).
      pose proof (Z.mod_le (2 * rmax) (2 ^ 32) ltac:(lia) ltac:(lia)). lia. }
    apply IH in Hrun as [Hp Hle]; [|lia]. split; [lia|].
    replace (p' - p)%nat with (S (p' - S p)) by lia.
    rewrite Nat2Z.inj_succ, Z.pow_succ_r by lia.
    pose proof (pow2_pos (Z.of_nat (p' - S p)) ltac:(lia)). nia.
  - inversion Hrun; subst. rewrite Nat.sub_diag. simpl. lia.
Qed.

Lemma reject_loop_position fuel : forall max r rmax defect p res p',
  reject_loop (stream_bit bits) fuel max r rmax defect p = Ret res p' ->
  (p <= p')%nat.
Proof.
  induction fuel as [|fuel IH]; intros max r rmax defect p res p' Hrun;
    simpl in Hrun; [discriminate|].
  destruct (_ <=? _).
  - rewrite bind_stream_bit in Hrun. cbv zeta in Hrun.
    destruct (_ <? _); apply IH in Hrun; lia.
  - inversion Hrun; subst. lia.
Qed.

Lemma secure_random_Ret_split fuel max p v p' :
  1 <= max ->
  secure_random (stream_bit bits) fuel max p = Ret v p' ->
  exists r rmax p1 r' rmax',
    grow_loop (stream_bit bits) fuel max 0 1 p = Ret (r, rmax) p1 /\
    reject_loop (stream_bit bits) fuel max r rmax (rmax mod max) p1
      = Ret (r', rmax') p' /\
    v = r' / (rmax' / max).
Proof.
  intros Hmax Hrun. unfold secure_random in Hrun.
  destruct (Z.eqb_spec max 0) as [?|_]; [lia|].
  apply bind_Ret in Hrun as ([r rmax] & p1 & Hgrow & Hrun).
  apply bind_Ret in Hrun as ([r' rmax'] & p2 & Hrej & Hrun).
  destruct (_ =? _); [discriminate|]. inversion Hrun; subst.
  exists r, rmax, p1, r', rmax'. repeat split; assumption.
Qed.

Lemma secure_random_min_bits fuel max p v p' :
  1 <= max < 2 ^ 32 ->
  secure_random (stream_bit bits) fuel max p = Ret v p' ->
  (p + width max <= p')%nat.
Proof.
  intros Hmax Hrun.
  apply secure_random_Ret_split in Hrun
    as (r & rmax & p1 & r' & rmax' & Hgrow & Hrej & _); [|lia].
  pose proof (grow_loop_position fuel max 0 1 p r rmax p1 ltac:(lia) Hgrow)
    as [Hp Hle].
  apply grow_loop_inv in Hgrow as [_ Hge]; [|exact Hmax|right; apply grow_inv_start].
  apply reject_loop_position in Hrej.
  assert (width max <= p1 - p)%nat by (apply width_le; lia). lia.
Qed.

(** Where the number made of the first [width max] bits is below [max],
    it is returned as it is and no further bit is taken. *)
Lemma first_candidate_accepted fuel max p :
  1 <= max <= 2 ^ 31 -> (33 <= fuel)%nat ->
  bits_value bits p (width max) < max ->
  secure_random (stream_bit bits) fuel max p
  = Ret (bits_value bits p (width max)) (p + width max)%nat.
Proof.
  intros Hmax Hfuel Hv.
  destruct (width_spec max ltac:(lia)) as (Hw & Hle & Hsmall).
  assert (width max <= 31)%nat as Hk by (apply width_le; simpl; lia).
  pose proof (bits_value_bound (width max) p) as Hb.
  set (k := width max) in *. set (v := bits_value bits p k) in *.
  assert (grow_loop (stream_bit bits) fuel max 0 1 p
          = Ret (v, 2 ^ Z.of_nat k) (p + k)%nat) as Hgrow.
  { pose proof (grow_loop_exact k fuel max 0 0 p) as H.
    rewrite Z.add_0_l, Z.mul_1_l in H. change (2 ^ 0) with 1 in H.
    apply H; try lia. intros i Hi. apply Hsmall. lia. }
  assert (2 ^ Z.of_nat k < 2 * max) as Hlt2.
  { destruct (Z.eq_dec (Z.of_nat k) 0) as [Hz|Hne]; [rewrite Hz; simpl; lia|].
    pose proof (Hsmall (Z.of_nat k - 1) ltac:(lia)).
    pose proof (pow2_double (Z.of_nat k - 1) ltac:(lia)) as Hd.
    replace (Z.of_nat k - 1 + 1) with (Z.of_nat k) in Hd by lia. lia. }
  assert (2 ^ Z.of_nat k / max = 1) as Hq.
  { symmetry. apply (Z.div_unique _ _ 1 (2 ^ Z.of_nat k - max)); lia. }
  assert (2 ^ Z.of_nat k mod max = 2 ^ Z.of_nat k - max) as Hd.
  { symmetry. apply (Z.mod_unique _ _ 1); lia. }
  unfold secure_random. destruct (Z.eqb_spec max 0) as [?|_]; [lia|].
  unfold bind at 1. rewrite Hgrow. unfold bind at 1.
  destruct fuel as [|fuel]; [lia|].
  rewrite reject_loop_accepts.
  - rewrite Hq. change (1 =? 0) with false. cbv iota.
    rewrite Z.div_1_r. reflexivity.
  - lia.
  - apply reject_inv_start; [lia| |exact Hle].
    apply grow_loop_inv in Hgrow as [Hg _]; [exact Hg|lia|right; apply grow_inv_start].
  - rewrite Hd. lia.
Qed.
End StreamBits.

(** C4, as amended. For every [max] from 1 to 2^31 and every stream of
    bits, the first loop of [secure_random] ends: on exit [rmax] is
    [2^k], the smallest power of two that is at least [max], the loop has
    taken [k] bits, one for each doubling, and [r] is the number these
    bits make, low bit first, so that [r < rmax]; no operation on the
    way wraps. *)
Theorem first_loop_ends_up_to_2_31 bits fuel max p :
  1 <= max <= 2 ^ 31 -> (32 <= fuel)%nat ->
  exists r k,
    grow_loop (stream_bit bits) fuel max 0 1 p
      = Ret (r, 2 ^ Z.of_nat k) (p + k)%nat /\
    (k <= 31)%nat /\ max <= 2 ^ Z.of_nat k /\
    (forall j, 0 <= j -> max <= 2 ^ j -> Z.of_nat k <= j) /\
    r = bits_value bits p k /\ 0 <= r < 2 ^ Z.of_nat k.
Proof.
  intros Hmax Hfuel.
  destruct (width_spec max ltac:(lia)) as (_ & Hle & Hsmall).
  assert (width max <= 31)%nat as Hk by (apply width_le; simpl; lia).
  exists (bits_value bits p (width max)), (width max).
  split; [|split; [exact Hk|split; [exact Hle|split; [|split]]]].
  - pose proof (grow_loop_exact bits (width max) fuel max 0 0 p) as Hrun.
    rewrite Z.add_0_l, Z.mul_1_l in Hrun. change (2 ^ 0) with 1 in Hrun.
    apply Hrun; try lia. intros i Hi. apply Hsmall. lia.
  - intros j Hj Hreach.
    destruct (Z.le_gt_cases (Z.of_nat (width max)) j) as [|Hgt]; [assumption|].
    specialize (Hsmall j ltac:(lia)). lia.
  - reflexivity.
  - apply bits_value_bound.
Qed.

Lemma first_loop_ends_up_to_2_31_witness :
  exists r k,
    grow_loop (stream_bit (prepend [true; false; true] ones)) 32 (2 ^ 31) 0 1 2%nat
      = Ret (r, 2 ^ Z.of_nat k) (2 + k)%nat /\
    (k <= 31)%nat /\ 2 ^ 31 <= 2 ^ Z.of_nat k /\
    (forall j, 0 <= j -> 2 ^ 31 <= 2 ^ j -> Z.of_nat k <= j) /\
    r = bits_value (prepend [true; false; true] ones) 2 k /\
    0 <= r < 2 ^ Z.of_nat k.
Proof.
  apply (first_loop_ends_up_to_2_31 (prepend [true; false; true] ones)
           32 (2 ^ 31) 2%nat); lia.
Defined.

(** X3. On a stream of bits, for [max] from 1 to 2^31: no call of
    [secure_random max] that returns has taken fewer than [width max]
    bits, the least number of bits that can tell [max] values apart; and
    where the number made of the first [width max] bits is below [max],
    the call returns that number and takes exactly [width max] bits. *)
Theorem sampler_uses_fewest_bits bits fuel max p :
  1 <= max <= 2 ^ 31 ->
  (forall v p',
     secure_random (stream_bit bits) fuel max p = Ret v p' ->
     (p + width max <= p')%nat) /\
  ((33 <= fuel)%nat -> bits_value bits p (width max) < max ->
   secure_random (stream_bit bits) fuel max p
   = Ret (bits_value bits p (width max)) (p + width max)%nat).
Proof.
  intros Hmax. split.
  - intros v p' Hrun. apply (secure_random_min_bits bits fuel max p v p'); [lia|exact Hrun].
  - intros Hfuel Hv. apply first_candidate_accepted; assumption.
Qed.

Lemma sampler_uses_fewest_bits_witness :
  (3 + width 5 <= 6)%nat /\
  secure_random (stream_bit (prepend [true; true; true; false; false; true] zeros))
                40 5 3%nat
  = Ret (bits_value (prepend [true; true; true; false; false; true] zeros) 3 (width 5))
        (3 + width 5)%nat.
Proof.
  split.
  - apply (proj1 (sampler_uses_fewest_bits
                    (prepend [true; true; true; false; false; true] zeros)
                    40 5 3%nat ltac:(lia)) 4 6%nat).
    reflexivity.
  - apply (proj2 (sampler_uses_fewest_bits
                    (prepend [true; true; true; false; false; true] zeros)
                    40 5 3%nat ltac:(lia))).
    + lia.
    + vm_compute. reflexivity.
Defined.

(** X4. For [max] a power of two, [2^k] with [k] at most 31,
    [secure_random] never rejects: on every stream it takes exactly [k]
    bits and returns the number they make, low bit first, so that each of
    the [2^k] values comes from exactly one string of [k] bits. *)
Theorem power_of_two_never_rejects bits fuel k p :
  (k <= 31)%nat -> (33 <= fuel)%nat ->
  secure_random (stream_bit bits) fuel (2 ^ Z.of_nat k) p
  = Ret (bits_value bits p k) (p + k)%nat.
Proof.
  intros Hk Hfuel.
  assert (width (2 ^ Z.of_nat k) = k) as Hw.
  { unfold width. rewrite Z.log2_up_pow2 by lia. apply Nat2Z.id. }
  pose proof (pow2_pos (Z.of_nat k) ltac:(lia)).
  pose proof (pow2_le_mono (Z.of_nat k) 31 ltac:(lia)).
  pose proof (first_candidate_accepted bits fuel (2 ^ Z.of_nat k) p) as Hacc.
  rewrite Hw in Hacc. apply Hacc; [lia|exact Hfuel|].
  apply bits_value_bound.
Qed.

Lemma power_of_two_never_rejects_witness :
  secure_random (stream_bit ones) 40 (2 ^ Z.of_nat 4) 7%nat
  = Ret (bits_value ones 7 4) (7 + 4)%nat.
Proof. apply (power_of_two_never_rejects ones 40 4 7%nat); lia. Defined.

(** *** The bits a call does not take *)

Lemma grow_loop_local bits bits' fuel : forall max r rmax p res p',
  grow_loop (stream_bit bits) fuel max r rmax p = Ret res p' ->
  (forall i, (p <= i < p')%nat -> bits i = bits' i) ->
  grow_loop (stream_bit bits') fuel max r rmax p = Ret res p'.
Proof.
  induction fuel as [|fuel IH]; intros max r rmax p res p' Hrun Hsame;
    simpl in Hrun |- *; [discriminate|].
  destruct (rmax <? max); [|exact Hrun].
  rewrite bind_stream_bit in Hrun |- *.
  assert (S p <= p')%nat as Hp.
  { destruct res as [r' rmax'].
    eapply (grow_loop_position bits fuel max _ (wrap (Z.shiftl rmax 1)));
      [|exact Hrun].
    unfold wrap. apply Z.mod_pos_bound. lia. }
  rewrite <- (Hsame p) by lia. apply IH; [exact Hrun|].
  intros i Hi. apply Hsame. lia.
Qed.

Lemma reject_loop_local bits bits' fuel : forall max r rmax defect p res p',
  reject_loop (stream_bit bits) fuel max r rmax defect p = Ret res p' ->
  (forall i, (p <= i < p')%nat -> bits i = bits' i) ->
  reject_loop (stream_bit bits') fuel max r rmax defect p = Ret res p'.
Proof.
  induction fuel as [|fuel IH]; intros max r rmax defect p res p' Hrun Hsame;
    simpl in Hrun |- *; [discriminate|].
  destruct (_ <=? _); [|exact Hrun].
  rewrite bind_stream_bit in Hrun |- *. cbv zeta in Hrun |- *.
  assert (S p <= p')%nat as Hp.
  { destruct (_ <? _); apply reject_loop_position in Hrun; exact Hrun. }
  rewrite <- (Hsame p) by lia.
  destruct (_ <? _); (apply IH; [exact Hrun|]); intros i Hi; apply Hsame; lia.
Qed.

(** X5. A call of [secure_random] that returns depends on the stream
    only through the bits it has taken: on any stream with the same bits
    from the position where the call starts up to the position where it
    ends, it returns the same value at the same position. Bits before
    and after are not looked at. *)
Theorem secure_random_reads_only_its_bits bits bits' fuel max p v p' :
  secure_random (stream_bit bits) fuel max p = Ret v p' ->
  (forall i, (p <= i < p')%nat -> bits i = bits' i) ->
  secure_random (stream_bit bits') fuel max p = Ret v p'.
Proof.
  intros Hrun Hsame. unfold secure_random in *.
  destruct (max =? 0); [discriminate|].
  apply bind_Ret in Hrun as ([r rmax] & p1 & Hgrow & Hrun).
  apply bind_Ret in Hrun as ([r' rmax'] & p2 & Hrej & Hrun).
  assert (p <= p1)%nat as Hp1.
  { eapply (grow_loop_position bits fuel max 0 1); [lia|exact Hgrow]. }
  pose proof (reject_loop_position _ _ _ _ _ _ _ _ _ Hrej) as Hp2.
  assert (p2 = p') as -> by (destruct (_ =? _); inversion Hrun; reflexivity).
  unfold bind at 1.
  rewrite (grow_loop_local bits bits' fuel _ _ _ _ _ _ Hgrow)
    by (intros i Hi; apply Hsame; lia).
  unfold bind at 1.
  rewrite (reject_loop_local bits bits' fuel _ _ _ _ _ _ _ Hrej)
    by (intros i Hi; apply Hsame; lia).
  exact Hrun.
Qed.

Lemma secure_random_reads_only_its_bits_witness :
  secure_random (stream_bit (prepend [true; true; false] ones)) 9 3 0%nat
  = Ret 1 3%nat.
Proof.
  apply (secure_random_reads_only_its_bits
           (prepend [true; true; false] zeros) (prepend [true; true; false] ones)
           9 3 0%nat 1 3%nat).
  - reflexivity.
  - intros [|[|[|i]]] Hi; try reflexivity. lia.
Defined.

(** *** The bits a shuffle takes *)

Lemma shuffle_from_min_bits bits fuel i : forall deck p deck' p',
  Z.of_nat i < 2 ^ 31 ->
  shuffle_from (stream_bit bits) fuel i deck p = Ret deck' p' ->
  (p + min_bits i <= p')%nat.
Proof.
  induction i as [|i IH]; intros deck p deck' p' Hi Hrun; simpl in Hrun.
  - inversion Hrun; subst. simpl. lia.
  - apply bind_Ret in Hrun as (j & p1 & Hdraw & Hrun).
    apply bind_Ret in Hrun as (deck1 & p2 & Hswap & Hrun).
    apply swap_cards_Ret in Hswap as [-> ->].
    apply IH in Hrun; [|lia].
    rewrite (wrap_small (Z.of_nat (S i) + 1)) in Hdraw by lia.
    apply secure_random_min_bits in Hdraw; [|lia].
    cbn [min_bits]. lia.
Qed.

(** X6. Every run of [shuffle_deck] on a stream of bits that returns has
    taken at least 249 bits, the sum of the widths of the 51 ranges it
    draws from. *)
Theorem shuffle_deck_takes_249_bits bits fuel deck p deck' p' :
  shuffle_deck (stream_bit bits) fuel deck p = Ret deck' p' ->
  (p + 249 <= p')%nat.
Proof.
  intros Hrun. unfold shuffle_deck in Hrun.
  apply shuffle_from_min_bits in Hrun; [|unfold DECK_SIZE; lia].
  assert (min_bits (DECK_SIZE - 1) = 249%nat) as Hsum by (vm_compute; reflexivity).
  lia.
Qed.

Lemma shuffle_deck_takes_249_bits_witness :
  exists deck',
    shuffle_deck (stream_bit zeros) 8 init_deck 0%nat = Ret deck' 249%nat /\
    (0 + 249 <= 249)%nat.
Proof.
  destruct (shuffle_deck (stream_bit zeros) 8 init_deck 0%nat)
    as [deck' p'| | |] eqn:Hrun; try (vm_compute in Hrun; discriminate).
  assert (p' = 249%nat) as -> by (vm_compute in Hrun; inversion Hrun; reflexivity).
  exists deck'. split; [reflexivity|].
  apply (shuffle_deck_takes_249_bits zeros 8 init_deck 0%nat deck' 249%nat).
  exact Hrun.
Defined.

(** ** No undefined behaviour *)

Lemma safe_outcome_impl {St A} (P P' : A -> St -> Prop)
    (Q Q' : Z -> string -> St -> Prop) (o : outcome St A) :
  safe_outcome P Q o ->
  (forall a s, P a s -> P' a s) -> (forall st d s, Q st d s -> Q' st d s) ->
  safe_outcome P' Q' o.
Proof. destruct o; cbn; auto. Qed.

Lemma bind_safe {St A B} (m : M St A) (k : A -> M St B)
    (P1 : A -> St -> Prop) (P2 : B -> St -> Prop) Q s :
  safe_outcome P1 Q (m s) ->
  (forall a s1, P1 a s1 -> safe_outcome P2 Q (k a s1)) ->
  safe_outcome P2 Q (bind m k s).
Proof. unfold bind. destruct (m s); cbn; auto. Qed.

Section Safety.
Context {St : Type}.
Variable random_bit : M St Z.
Variable I : St -> Prop.
Variable Q : Z -> string -> St -> Prop.
Hypothesis random_bit_safe :
  forall s, I s -> safe_outcome (fun _ s' => I s') Q (random_bit s).

Lemma grow_loop_safe fuel : forall max r rmax s,
  I s -> safe_outcome (fun _ s' => I s') Q (grow_loop random_bit fuel max r rmax s).
Proof.
  induction fuel as [|fuel IH]; intros max r rmax s Hs; simpl; [exact Logic.I|].
  destruct (rmax <? max); [|exact Hs].
  apply (bind_safe _ _ (fun _ s' => I s')); [apply random_bit_safe; exact Hs|].
  intros b s1 Hs1. apply IH. exact Hs1.
Qed.

Lemma reject_loop_safe fuel : forall max r rmax defect s,
  I s ->
  safe_outcome (fun _ s' => I s') Q
               (reject_loop random_bit fuel max r rmax defect s).
Proof.
  induction fuel as [|fuel IH]; intros max r rmax defect s Hs; simpl;
    [exact Logic.I|].
  destruct (_ <=? _); [|exact Hs].
  apply (bind_safe _ _ (fun _ s' => I s')); [apply random_bit_safe; exact Hs|].
  intros b s1 Hs1. cbv zeta. destruct (_ <? _); apply IH; exact Hs1.
Qed.

(** The division at the end of [secure_random] never divides by zero. *)
Lemma secure_random_safe fuel max s :
  1 <= max < 2 ^ 32 -> I s ->
  safe_outcome (fun v s' => 0 <= v < max /\ I s') Q
               (secure_random random_bit fuel max s).
Proof.
  intros Hmax Hs. unfold secure_random.
  destruct (Z.eqb_spec max 0) as [?|_]; [lia|]. unfold bind.
  pose proof (grow_loop_safe fuel max 0 1 s Hs) as Hg.
  destruct (grow_loop random_bit fuel max 0 1 s) as [[r rmax] s1| | |] eqn:Hgrow;
    cbn in Hg |- *; try assumption.
  apply grow_loop_inv in Hgrow as [Hinv Hle];
    [|exact Hmax|right; apply grow_inv_start].
  pose proof (reject_loop_safe fuel max r rmax (rmax mod max) s1 Hg) as Hr.
  destruct (reject_loop random_bit fuel max r rmax (rmax mod max) s1)
    as [[r' rmax'] s2| | |] eqn:Hrej; cbn in Hr |- *; try assumption.
  apply reject_loop_inv in Hrej as [Hinv' Hacc];
    [|lia|apply reject_inv_start; [lia|assumption..]].
  destruct (accepted_quotient max r' rmax' ltac:(lia) Hinv' Hacc) as [Hq Hv].
  destruct (Z.eqb_spec (rmax' / max) 0) as [?|_]; [lia|].
  cbn. split; assumption.
Qed.

(** No exchange of the shuffle leaves the deck. *)
Lemma shuffle_from_safe fuel i : forall deck s,
  (i < length deck)%nat -> Z.of_nat i < 2 ^ 31 -> I s ->
  safe_outcome (fun d s' => d ≡ₚ deck /\ length d = length deck /\ I s') Q
               (shuffle_from random_bit fuel i deck s).
Proof.
  induction i as [|i IH]; intros deck s Hlen Hi Hs; simpl.
  - cbn. auto.
  - apply (bind_safe _ _ (fun v s' => 0 <= v < Z.of_nat (S i) + 1 /\ I s')).
    + rewrite (wrap_small (Z.of_nat (S i) + 1)) by lia.
      apply secure_random_safe; [lia|exact Hs].
    + intros j s1 [Hj Hs1]. unfold bind.
      rewrite swap_cards_in_bounds by lia.
      eapply safe_outcome_impl;
        [apply (IH (swap deck (S i) (Z.to_nat j)) s1);
         [rewrite swap_length; lia|lia|exact Hs1]| |auto].
      intros d s2 (Hperm & Hl & Hs2).
      rewrite swap_length in Hl. rewrite swap_perm in Hperm. auto.
Qed.

Lemma shuffle_deck_safe fuel deck s :
  length deck = DECK_SIZE -> I s ->
  safe_outcome (fun d s' => d ≡ₚ deck /\ length d = length deck /\ I s') Q
               (shuffle_deck random_bit fuel deck s).
Proof.
  intros Hlen Hs. unfold shuffle_deck. apply shuffle_from_safe;
    [rewrite Hlen|..]; unfold DECK_SIZE; try lia. exact Hs.
Qed.

Lemma shuffle_times_safe fuel n : forall deck s,
  length deck = DECK_SIZE -> I s ->
  safe_outcome (fun d s' => d ≡ₚ deck /\ length d = length deck /\ I s') Q
               (shuffle_times random_bit fuel n deck s).
Proof.
  induction n as [|n IH]; intros deck s Hlen Hs; simpl.
  - cbn. auto.
  - eapply bind_safe; [apply shuffle_deck_safe; assumption|].
    intros d s1 (Hperm & Hl & Hs1). cbv beta.
    eapply safe_outcome_impl; [apply IH; [congruence|exact Hs1]| |auto].
    intros d' s2 (Hperm' & Hl' & Hs2). cbv beta.
    repeat split; [rewrite Hperm'; exact Hperm|congruence|exact Hs2].
Qed.
End Safety.

Lemma buffer_bit_safe e :
  entropy_wf e ->
  safe_outcome (fun _ e' => entropy_wf e') (fun st d _ => entropy_exit st d)
               (secure_random_bit e).
Proof.
  intros Hwf. eapply safe_outcome_impl; [apply secure_random_bit_safe; exact Hwf|..].
  - intros b e' (_ & Hwf' & _). exact Hwf'.
  - intros st d e' (Hst & Hd & _). split; assumption.
Qed.

(** X7. From a state of the entropy buffer that satisfies [entropy_wf],
    and for [max] from 1 up that a uint32_t holds, [secure_random] has no
    undefined step: it never indexes outside [rand_buf] and never divides
    by zero. If it returns, the value is in [[0, max)] and the state
    satisfies [entropy_wf] again; if it exits, it is with status 1 after
    a failed open or read of the device. *)
Theorem secure_random_on_buffer_is_safe fuel max e :
  entropy_wf e -> 1 <= max < 2 ^ 32 ->
  match secure_random secure_random_bit fuel max e with
  | Ret v e' => 0 <= v < max /\ entropy_wf e'
  | Exit st d _ => entropy_exit st d
  | Undef => False
  | OutOfFuel => True
  end.
Proof.
  intros Hwf Hmax.
  exact (secure_random_safe secure_random_bit entropy_wf
           (fun st d _ => entropy_exit st d) buffer_bit_safe fuel max e Hmax Hwf).
Qed.

Lemma secure_random_on_buffer_is_safe_witness :
  match secure_random secure_random_bit 9 52 (entropy_init six_byte_dev) with
  | Ret v e' => 0 <= v < 52 /\ entropy_wf e'
  | Exit st d _ => entropy_exit st d
  | Undef => False
  | OutOfFuel => True
  end.
Proof.
  apply (secure_random_on_buffer_is_safe 9 52 (entropy_init six_byte_dev)).
  - apply entropy_init_wf.
  - lia.
Defined.

(** X8. From a state of the entropy buffer that satisfies [entropy_wf],
    [shuffle_deck] on a deck of 52 cards has no undefined step: no access
    outside the deck or the buffer, no division by zero. If it returns,
    the deck is a permutation of the one given and the state satisfies
    [entropy_wf]; if it exits, it is with status 1 after a failed open or
    read of the device. *)
Theorem shuffle_deck_on_buffer_is_safe fuel deck e :
  entropy_wf e -> length deck = DECK_SIZE ->
  match shuffle_deck secure_random_bit fuel deck e with
  | Ret deck' e' => deck' ≡ₚ deck /\ length deck' = length deck /\ entropy_wf e'
  | Exit st d _ => entropy_exit st d
  | Undef => False
  | OutOfFuel => True
  end.
Proof.
  intros Hwf Hlen.
  exact (shuffle_deck_safe secure_random_bit entropy_wf
           (fun st d _ => entropy_exit st d) buffer_bit_safe fuel deck e Hlen Hwf).
Qed.

Lemma shuffle_deck_on_buffer_is_safe_witness :
  match shuffle_deck secure_random_bit 9 init_deck (entropy_init six_byte_dev) with
  | Ret deck' e' =>
      deck' ≡ₚ init_deck /\ length deck' = length init_deck /\ entropy_wf e'
  | Exit st d _ => entropy_exit st d
  | Undef => False
  | OutOfFuel => True
  end.
Proof.
  apply (shuffle_deck_on_buffer_is_safe 9 init_deck (entropy_init six_byte_dev)).
  - apply entropy_init_wf.
  - reflexivity.
Defined.

(** ** [init_deck] and [print_deck] *)

Lemma init_deck_lookup i :
  (i < DECK_SIZE)%nat ->
  exists s r, suits !! (i / 13)%nat = Some s /\ ranks !! (i mod 13)%nat = Some r /\
              init_deck !! i = Some (mkCard s r).
Proof.
  unfold DECK_SIZE. intros Hi.
  destruct (lookup_lt_is_Some_2 suits (i / 13)%nat) as [s Hs];
    [change (length suits) with 4%nat; lia|].
  destruct (lookup_lt_is_Some_2 ranks (i mod 13)%nat) as [r Hr];
    [change (length ranks) with 13%nat; lia|].
  exists s, r. repeat split; try assumption.
  unfold init_deck. rewrite list_lookup_fmap, lookup_seq_lt by exact Hi.
  cbn [fmap option_fmap option_map]. change (0 + i)%nat with i.
  rewrite Hs, Hr. reflexivity.
Qed.

(** The loop of [init_deck], index by index: the entries below [i] are
    as they were, those from [i] on are the cards of [init_deck]. *)
Lemma init_deck_from_spec {St} count : forall i deck (s : St),
  (i + count = DECK_SIZE)%nat -> length deck = DECK_SIZE ->
  init_deck_from count i deck s = Ret (take i deck ++ drop i init_deck) s.
Proof.
  induction count as [|count IH]; intros i deck s Hi Hlen; cbn [init_deck_from].
  - unfold ret. rewrite Nat.add_0_r in Hi. subst i.
    rewrite take_ge by lia.
    rewrite drop_ge by (change (length init_deck) with DECK_SIZE; lia).
    rewrite app_nil_r. reflexivity.
  - destruct (init_deck_lookup i ltac:(lia)) as (su & r & -> & -> & Hc).
    destruct (decide (i < length deck)%nat) as [Hlt|]; [|lia].
    rewrite IH by (try rewrite length_insert; lia).
    f_equal.
    rewrite (take_S_r _ _ (mkCard su r))
      by (apply list_lookup_insert_eq; exact Hlt).
    rewrite take_insert_ge by lia.
    rewrite (drop_S init_deck (mkCard su r) i Hc).
    rewrite <- app_assoc. reflexivity.
Qed.

(** X9. Whatever the 52 entries of the array hold before, [init_deck]
    leaves the same deck: entry [i] has suit [suits[i / 13]] and rank
    [ranks[i % 13]], for 52 cards that are all different; nothing else
    changes. *)
Theorem init_deck_overwrites_every_entry {St} (deck : list Card) (s : St) :
  length deck = DECK_SIZE ->
  init_deck_into deck s = Ret init_deck s /\
  NoDup init_deck /\ length init_deck = DECK_SIZE /\
  forall i c, init_deck !! i = Some c ->
              suits !! (i / 13)%nat = Some (suit c) /\
              ranks !! (i mod 13)%nat = Some (rank c).
Proof.
  intros Hlen. split; [|split; [|split]].
  - unfold init_deck_into. rewrite init_deck_from_spec by (try reflexivity; exact Hlen).
    reflexivity.
  - apply (bool_decide_unpack _). vm_compute. exact Logic.I.
  - reflexivity.
  - intros i c Hc.
    assert (i < DECK_SIZE)%nat as Hi
      by (apply lookup_lt_Some in Hc; exact Hc).
    destruct (init_deck_lookup i Hi) as (su & r & Hs & Hr & Hc').
    rewrite Hc in Hc'. injection Hc' as ->. split; assumption.
Qed.

Lemma init_deck_overwrites_every_entry_witness :
  init_deck_into (replicate 52 (mkCard "x" "y")) 0%nat = Ret init_deck 0%nat.
Proof.
  apply (init_deck_overwrites_every_entry (replicate 52 (mkCard "x" "y")) 0%nat).
  reflexivity.
Defined.

Lemma print_from_spec count : forall i deck p,
  (i + count <= length deck)%nat ->
  print_from count i deck p
  = Ret tt (mkProcess (ent p)
                      (stdout p ++ deck_text i (take count (drop i deck)))).
Proof.
  induction count as [|count IH]; intros i deck p Hlen; cbn [print_from].
  - unfold ret. rewrite take_0. cbn [deck_text]. rewrite app_nil_r.
    destruct p; reflexivity.
  - destruct (lookup_lt_is_Some_2 deck i ltac:(lia)) as [c Hc]. rewrite Hc.
    unfold bind, printf. rewrite IH by lia. cbn [ent stdout].
    rewrite (drop_S deck c i Hc). cbn [take deck_text].
    rewrite <- app_assoc. reflexivity.
Qed.

Lemma deck_text_inj d1 : forall d2 i,
  length d1 = length d2 -> deck_text i d1 = deck_text i d2 -> d1 = d2.
Proof.
  induction d1 as [|c1 d1 IH]; intros [|c2 d2] i Hlen Htext;
    try discriminate; [reflexivity|].
  cbn [deck_text] in Htext. unfold card_text in Htext.
  rewrite <- !app_assoc in Htext. cbn [app] in Htext.
  injection Htext as Hr Hs Hrest.
  apply app_inv_head in Hrest.
  destruct c1, c2. cbn in Hr, Hs. subst.
  f_equal. apply (IH d2 (S i)); [simpl in Hlen; lia|exact Hrest].
Qed.

Lemma deck_text_length deck :
  length deck = DECK_SIZE -> length (deck_text 0 deck) = 160%nat.
Proof.
  unfold DECK_SIZE. intros Hlen.
  do 52 (destruct deck as [|? deck]; [discriminate Hlen|]).
  destruct deck; [reflexivity|discriminate Hlen].
Qed.

Lemma print_deck_run deck p :
  length deck = DECK_SIZE ->
  print_deck deck p = Ret tt (mkProcess (ent p) (stdout p ++ deck_text 0 deck)).
Proof.
  intros Hlen. unfold print_deck. rewrite print_from_spec by lia.
  rewrite drop_0, take_ge by lia. reflexivity.
Qed.

(** X10. On a deck of 52 cards [print_deck] appends to stdout, for each
    card in order, its rank, its suit and a space, and a newline after
    every 13th card: 160 characters in all. It changes nothing else, and
    takes no bit from the entropy buffer. *)
Theorem print_deck_appends_the_cards deck p :
  length deck = DECK_SIZE ->
  print_deck deck p
    = Ret tt (mkProcess (ent p) (stdout p ++ deck_text 0 deck)) /\
  length (deck_text 0 deck) = 160%nat.
Proof.
  intros Hlen. split.
  - apply print_deck_run. exact Hlen.
  - apply deck_text_length. exact Hlen.
Qed.

Lemma print_deck_appends_the_cards_witness :
  print_deck init_deck (process_init six_byte_dev)
    = Ret tt (mkProcess (ent (process_init six_byte_dev))
                        (stdout (process_init six_byte_dev)
                         ++ deck_text 0 init_deck)) /\
  length (deck_text 0 init_deck) = 160%nat.
Proof.
  apply (print_deck_appends_the_cards init_deck (process_init six_byte_dev)).
  reflexivity.
Defined.

(** X11. The text [print_deck] writes tells the deck: two decks of 52
    cards printed from the same state of the process leave the same
    output only if they are the same deck. *)
Theorem print_deck_tells_the_deck d1 d2 p :
  length d1 = DECK_SIZE -> length d2 = DECK_SIZE ->
  print_deck d1 p = print_deck d2 p -> d1 = d2.
Proof.
  intros H1 H2 Heq.
  rewrite (print_deck_run d1 p H1), (print_deck_run d2 p H2) in Heq.
  injection Heq as Heq. apply app_inv_head in Heq.
  apply (deck_text_inj d1 d2 0); [congruence|exact Heq].
Qed.

Lemma print_deck_tells_the_deck_witness :
  length init_deck = DECK_SIZE /\
  print_deck init_deck (process_init six_byte_dev)
  = print_deck (swap (swap init_deck 3 7) 3 7) (process_init six_byte_dev) /\
  init_deck = swap (swap init_deck 3 7) 3 7.
Proof.
  split; [reflexivity|]. split; [reflexivity|].
  apply (print_deck_tells_the_deck init_deck (swap (swap init_deck 3 7) 3 7)
           (process_init six_byte_dev)); reflexivity.
Defined.

(** ** [main] *)

Lemma bind_Exit {St A B} (m : M St A) (k : A -> M St B) s st d s' :
  m s = Exit st d s' -> bind m k s = Exit st d s'.
Proof. intros H. unfold bind. rewrite H. reflexivity. Qed.

Lemma process_bit_safe out p :
  entropy_wf (ent p) /\ stdout p = out ->
  safe_outcome (fun _ p' => entropy_wf (ent p') /\ stdout p' = out)
               (fun st d p' => entropy_exit st d /\ stdout p' = out)
               (process_bit p).
Proof.
  intros [Hwf Hout]. unfold process_bit.
  pose proof (buffer_bit_safe (ent p) Hwf) as Hsafe.
  destruct (secure_random_bit (ent p)); cbn in Hsafe |- *; auto.
Qed.

(** [main] up to its loop. *)
Lemma main_prologue fuel z stack_deck p0 :
  length stack_deck = DECK_SIZE ->
  main fuel z stack_deck p0
  = (deck <- shuffle_times process_bit fuel (Z.to_nat (wrap z)) init_deck;
     u <- printf shuffled_heading;
     u <- print_deck deck;
     exit 0 "")
      (mkProcess (ent p0)
                 (stdout p0 ++ original_heading ++ deck_text 0 init_deck)).
Proof.
  intros Hlen. unfold main. cbv zeta. unfold bind at 1.
  unfold init_deck_into. rewrite init_deck_from_spec by (try reflexivity; exact Hlen).
  rewrite take_0, drop_0. cbn [app].
  unfold bind at 1. unfold printf at 1. unfold bind at 1.
  rewrite print_deck_run by reflexivity. cbn [ent stdout].
  rewrite <- app_assoc. reflexivity.
Qed.

(** [main] from the count on: no undefined step, no return, and two
    ways to end. *)
Lemma main_from_count fuel z stack_deck p0 :
  entropy_wf (ent p0) -> length stack_deck = DECK_SIZE ->
  match main fuel z stack_deck p0 with
  | Exit st d p' =>
      (st = 0 /\
       exists deck', deck' ≡ₚ init_deck /\
         stdout p' = stdout p0 ++ original_heading ++ deck_text 0 init_deck
                     ++ shuffled_heading ++ deck_text 0 deck')
      \/ (entropy_exit st d /\
          stdout p' = stdout p0 ++ original_heading ++ deck_text 0 init_deck)
  | Ret _ _ | Undef => False
  | OutOfFuel => True
  end.
Proof.
  intros Hwf Hlen. rewrite main_prologue by exact Hlen.
  set (out := stdout p0 ++ original_heading ++ deck_text 0 init_deck).
  pose proof (shuffle_times_safe process_bit
                (fun p => entropy_wf (ent p) /\ stdout p = out)
                (fun st d p' => entropy_exit st d /\ stdout p' = out)
                (process_bit_safe out) fuel (Z.to_nat (wrap z)) init_deck
                (mkProcess (ent p0) out) eq_refl (conj Hwf eq_refl)) as Hsafe.
  unfold bind at 1.
  destruct (shuffle_times process_bit fuel (Z.to_nat (wrap z)) init_deck
              (mkProcess (ent p0) out)) as [deck' p1|st d p1| |];
    cbn in Hsafe; [|right; exact Hsafe|exact Hsafe|exact Logic.I].
  destruct Hsafe as (Hperm & Hl & _ & Hout).
  unfold bind at 1. unfold printf at 1. unfold bind at 1.
  rewrite print_deck_run by (rewrite Hl; reflexivity).
  unfold exit. cbn [ent stdout]. left. split; [reflexivity|].
  exists deck'. split; [exact Hperm|].
  rewrite Hout. unfold out. rewrite <- !app_assoc. reflexivity.
Qed.

(** X12. From a state whose entropy buffer satisfies [entropy_wf], and
    whatever the local array holds at first, [main] never returns and
    has one undefined step only: the read of [argv[1]] when the program
    is run without an argument, before anything is printed. Run with an
    argument, whatever count [strtol] makes of it, [main] ends, where it
    ends, in one of two ways: with status 0, having printed the heading
    and the 52 cards of the new deck, then the second heading and a deck
    that is a permutation of them; or with status 1 after a failed open
    or read of the device, having printed the first heading and the new
    deck only. *)
Theorem main_ends_in_exit strtol fuel argv stack_deck p0 :
  entropy_wf (ent p0) -> length stack_deck = DECK_SIZE ->
  match main_of_argv strtol fuel argv stack_deck p0 with
  | Exit st d p' =>
      (exists arg, argv !! 1%nat = Some arg) /\
      ((st = 0 /\
        exists deck', deck' ≡ₚ init_deck /\
          stdout p' = stdout p0 ++ original_heading ++ deck_text 0 init_deck
                      ++ shuffled_heading ++ deck_text 0 deck')
       \/ (entropy_exit st d /\
           stdout p' = stdout p0 ++ original_heading ++ deck_text 0 init_deck))
  | Undef => argv !! 1%nat = None
  | Ret _ _ => False
  | OutOfFuel => exists arg, argv !! 1%nat = Some arg
  end.
Proof.
  intros Hwf Hlen. unfold main_of_argv.
  destruct (argv !! 1%nat) as [arg|] eqn:Harg; [|reflexivity].
  pose proof (main_from_count fuel (strtol arg) stack_deck p0 Hwf Hlen) as Hmain.
  destruct (main fuel (strtol arg) stack_deck p0) as [u p'|st d p'| |].
  - exact Hmain.
  - split; [exists arg; reflexivity|exact Hmain].
  - destruct Hmain.
  - exists arg. reflexivity.
Qed.

Lemma main_ends_in_exit_witness :
  match main_of_argv (fun _ => 2) 9 ["shuffle"; "2"]
                     (replicate 52 (mkCard "x" "y"))
                     (process_init six_byte_dev) with
  | Exit st d p' =>
      (exists arg, ["shuffle"; "2"] !! 1%nat = Some arg) /\
      ((st = 0 /\
        exists deck', deck' ≡ₚ init_deck /\
          stdout p' = stdout (process_init six_byte_dev) ++ original_heading
                      ++ deck_text 0 init_deck
                      ++ shuffled_heading ++ deck_text 0 deck')
       \/ (entropy_exit st d /\
           stdout p' = stdout (process_init six_byte_dev) ++ original_heading
                       ++ deck_text 0 init_deck))
  | Undef => ["shuffle"; "2"] !! 1%nat = None
  | Ret _ _ => False
  | OutOfFuel => exists arg, ["shuffle"; "2"] !! 1%nat = Some arg
  end.
Proof.
  apply (main_ends_in_exit (fun _ => 2) 9 ["shuffle"; "2"]
           (replicate 52 (mkCard "x" "y")) (process_init six_byte_dev)).
  - apply entropy_init_wf.
  - reflexivity.
Defined.

(** Run without an argument, nothing is printed before the undefined
    read. *)
Example main_without_argument :
  main_of_argv (fun _ => 0) 9 ["shuffle"] init_deck (process_init six_byte_dev)
  = Undef.
Proof. reflexivity. Qed.

(** X13. Where the count [main] reads from its argument is 0 as a
    uint32_t, [main] shuffles nothing: it prints the new deck under both
    headings, exits with status 0 and never touches the entropy buffer or
    the device. *)
Theorem main_without_shuffles fuel z stack_deck p0 :
  wrap z = 0 -> length stack_deck = DECK_SIZE ->
  main fuel z stack_deck p0
  = Exit 0 "" (mkProcess (ent p0)
                 (stdout p0 ++ original_heading ++ deck_text 0 init_deck
                  ++ shuffled_heading ++ deck_text 0 init_deck)).
Proof.
  intros Hz Hlen. rewrite main_prologue by exact Hlen. rewrite Hz.
  change (Z.to_nat 0) with 0%nat. cbn [shuffle_times].
  unfold bind at 1. unfold ret. unfold bind at 1. unfold printf at 1.
  unfold bind at 1. rewrite print_deck_run by reflexivity.
  unfold exit. cbn [ent stdout]. rewrite <- !app_assoc. reflexivity.
Qed.

Lemma main_without_shuffles_witness :
  main 9 4294967296 (replicate 52 (mkCard "x" "y")) (process_init (fun _ => OpenFailed))
  = Exit 0 "" (mkProcess (ent (process_init (fun _ => OpenFailed)))
                 (stdout (process_init (fun _ => OpenFailed))
                  ++ original_heading ++ deck_text 0 init_deck
                  ++ shuffled_heading ++ deck_text 0 init_deck)).
Proof.
  apply (main_without_shuffles 9 4294967296 (replicate 52 (mkCard "x" "y"))
           (process_init (fun _ => OpenFailed))); reflexivity.
Defined.

(** X14. Where the count is at least 1 and the first call of
    [secure_random_bit] ends the process, [main] ends there, with the
    status and diagnostic of that call, having printed the first heading
    and the new deck and nothing after them. *)
Theorem main_stops_at_first_failed_read fuel z stack_deck p0 st d e' :
  1 <= wrap z -> length stack_deck = DECK_SIZE ->
  secure_random_bit (ent p0) = Exit st d e' ->
  main (S fuel) z stack_deck p0
  = Exit st d (mkProcess e'
                 (stdout p0 ++ original_heading ++ deck_text 0 init_deck)).
Proof.
  intros Hz Hlen Hbit. rewrite main_prologue by exact Hlen.
  destruct (Z.to_nat (wrap z)) as [|n] eqn:Hn; [lia|].
  apply bind_Exit. cbn [shuffle_times]. apply bind_Exit.
  unfold shuffle_deck. change (DECK_SIZE - 1)%nat with 51%nat.
  cbn [shuffle_from]. apply bind_Exit.
  unfold secure_random. change (wrap (Z.of_nat 51 + 1) =? 0) with false.
  cbv iota. apply bind_Exit. cbn [grow_loop].
  change (1 <? wrap (Z.of_nat 51 + 1)) with true. cbv iota.
  apply bind_Exit. unfold process_bit. cbn [ent stdout]. rewrite Hbit.
  reflexivity.
Qed.

Lemma main_stops_at_first_failed_read_witness :
  exists e',
    main 9 3 (replicate 52 (mkCard "x" "y")) (process_init (fun _ => OpenFailed))
    = Exit 1 "open"
        (mkProcess e' (stdout (process_init (fun _ => OpenFailed))
                       ++ original_heading ++ deck_text 0 init_deck)).
Proof.
  eexists.
  apply (main_stops_at_first_failed_read 8 3 (replicate 52 (mkCard "x" "y"))
           (process_init (fun _ => OpenFailed)) 1 "open").
  - vm_compute. discriminate.
  - reflexivity.
  - reflexivity.
Defined.

(** ** The first loop, and the sampler over the bits of any source *)

(** X15. On a stream of bits, for [max] from 1 to 2^31, the first loop
    of [secure_random] ends after [width max] bits, one for each
    doubling, with [rmax] the smallest power of two that is at least
    [max] and [r] the number those bits make, low bit first. *)
Theorem grow_loop_builds_the_candidate bits fuel max p :
  1 <= max <= 2 ^ 31 -> (33 <= fuel)%nat ->
  grow_loop (stream_bit bits) fuel max 0 1 p
    = Ret (bits_value bits p (width max), 2 ^ Z.of_nat (width max))
          (p + width max)%nat /\
  max <= 2 ^ Z.of_nat (width max) /\
  (forall j, 0 <= j -> max <= 2 ^ j -> Z.of_nat (width max) <= j) /\
  0 <= bits_value bits p (width max) < 2 ^ Z.of_nat (width max).
Proof.
  intros Hmax Hfuel.
  destruct (width_spec max ltac:(lia)) as (Hw & Hle & Hsmall).
  assert (width max <= 31)%nat as Hk by (apply width_le; simpl; lia).
  split; [|split; [exact Hle|split; [|apply bits_value_bound]]].
  - pose proof (grow_loop_exact bits (width max) fuel max 0 0 p) as H.
    rewrite Z.add_0_l, Z.mul_1_l in H. change (2 ^ 0) with 1 in H.
    apply H; try lia. intros i Hi. apply Hsmall. lia.
  - intros j Hj Hreach.
    destruct (Z.le_gt_cases (Z.of_nat (width max)) j) as [|Hgt]; [assumption|].
    specialize (Hsmall j ltac:(lia)). lia.
Qed.

Lemma grow_loop_builds_the_candidate_witness :
  grow_loop (stream_bit ones) 40 52 0 1 5%nat
    = Ret (bits_value ones 5 (width 52), 2 ^ Z.of_nat (width 52))
          (5 + width 52)%nat.
Proof.
  apply (grow_loop_builds_the_candidate ones 40 52 5%nat); lia.
Defined.

Section SourceAsStream.
Context {St : Type}.
Variable random_bit : M St Z.
(** The bits the source is about to deliver, the state after them, and a
    stream that starts with them. *)
Variable L : list Z.
Variable s_end : St.
Variable bits : nat -> bool.
Hypothesis bits_of_L : forall i b, L !! i = Some b -> bits i = (b =? 1).


Lemma delivers_step s p :
  delivers random_bit L s_end s p -> (p < length L)%nat ->
  exists b s1, random_bit s = Ret b s1 /\ bits p = (b =? 1) /\
               delivers random_bit L s_end s1 (S p).
Proof.
  unfold delivers. intros Hrun Hp.
  replace (length L - p)%nat with (S (length L - S p)) in Hrun by lia.
  cbn [draw_bits] in Hrun.
  apply bind_Ret in Hrun as (b & s1 & Hb & Hrun).
  apply bind_Ret in Hrun as (l & s2 & Hl & Hrun).
  destruct (lookup_lt_is_Some_2 L p Hp) as [x Hx].
  rewrite (drop_S L x p Hx) in Hrun. inversion Hrun; subst.
  exists x, s1. repeat split; [exact Hb|apply bits_of_L; exact Hx|exact Hl].
Qed.

Lemma grow_loop_on_source fuel : forall max r rmax s p res p',
  delivers random_bit L s_end s p ->
  grow_loop (stream_bit bits) fuel max r rmax p = Ret res p' ->
  (p' <= length L)%nat ->
  exists s', grow_loop random_bit fuel max r rmax s = Ret res s' /\
             delivers random_bit L s_end s' p'.
Proof.
  induction fuel as [|fuel IH]; intros max r rmax s p res p' Hs Hrun Hp';
    simpl in Hrun |- *; [discriminate|].
  destruct (rmax <? max).
  - rewrite bind_stream_bit in Hrun.
    assert (S p <= p')%nat as Hp.
    { destruct res as [r' rmax'].
      eapply (grow_loop_position bits fuel max _ (wrap (Z.shiftl rmax 1)));
        [|exact Hrun].
      unfold wrap. apply Z.mod_pos_bound. lia. }
    destruct (delivers_step s p Hs ltac:(lia)) as (b & s1 & Hb & Hbit & Hs1).
    unfold bind. rewrite Hb.
    assert (((if bits p then 1 else 0) =? 1) = (b =? 1)) as Heq
      by (rewrite Hbit; destruct (b =? 1); reflexivity).
    rewrite Heq in Hrun. apply (IH _ _ _ s1 (S p)); assumption.
  - inversion Hrun; subst. exists s. split; [reflexivity|exact Hs].
Qed.

Lemma reject_loop_on_source fuel : forall max r rmax defect s p res p',
  delivers random_bit L s_end s p ->
  reject_loop (stream_bit bits) fuel max r rmax defect p = Ret res p' ->
  (p' <= length L)%nat ->
  exists s', reject_loop random_bit fuel max r rmax defect s = Ret res s' /\
             delivers random_bit L s_end s' p'.
Proof.
  induction fuel as [|fuel IH]; intros max r rmax defect s p res p' Hs Hrun Hp';
    simpl in Hrun |- *; [discriminate|].
  destruct (_ <=? _).
  - rewrite bind_stream_bit in Hrun. cbv zeta in Hrun |- *.
    assert (S p <= p')%nat as Hp
      by (destruct (_ <? _); apply reject_loop_position in Hrun; exact Hrun).
    destruct (delivers_step s p Hs ltac:(lia)) as (b & s1 & Hb & Hbit & Hs1).
    unfold bind. rewrite Hb.
    assert (((if bits p then 1 else 0) =? 1) = (b =? 1)) as Heq
      by (rewrite Hbit; destruct (b =? 1); reflexivity).
    rewrite Heq in Hrun.
    destruct (_ <? _); apply (IH _ _ _ _ s1 (S p)); assumption.
  - inversion Hrun; subst. exists s. split; [reflexivity|exact Hs].
Qed.

(** X16. [secure_random] over any bit source is [secure_random] over the
    stream of the bits the source delivers: where the next calls of the
    source would return the bits [L], and a call of [secure_random] on a
    stream that starts with [L] returns [v] within those bits, the call
    on the source returns [v] too, and leaves the source about to deliver
    the bits of [L] that the call has not taken. *)
Theorem secure_random_on_source_as_on_stream fuel max s v p' :
  draw_bits random_bit (length L) s = Ret L s_end ->
  secure_random (stream_bit bits) fuel max 0%nat = Ret v p' ->
  (p' <= length L)%nat ->
  exists s', secure_random random_bit fuel max s = Ret v s' /\
             draw_bits random_bit (length L - p') s' = Ret (drop p' L) s_end.
Proof.
  intros Hall Hrun Hp'.
  assert (delivers random_bit L s_end s 0) as Hs
    by (unfold delivers; rewrite Nat.sub_0_r, drop_0; exact Hall).
  unfold secure_random in *. destruct (max =? 0); [discriminate|].
  apply bind_Ret in Hrun as ([r rmax] & p1 & Hgrow & Hrun).
  apply bind_Ret in Hrun as ([r' rmax'] & p2 & Hrej & Hrun).
  assert (p2 = p') as -> by (destruct (_ =? _); inversion Hrun; reflexivity).
  pose proof (reject_loop_position _ _ _ _ _ _ _ _ _ Hrej) as Hp1.
  destruct (grow_loop_on_source fuel _ _ _ s _ _ _ Hs Hgrow ltac:(lia))
    as (s1 & Hgrow' & Hs1).
  destruct (reject_loop_on_source fuel _ _ _ _ s1 _ _ _ Hs1 Hrej Hp')
    as (s2 & Hrej' & Hs2).
  exists s2. split; [|exact Hs2].
  unfold bind at 1. rewrite Hgrow'. unfold bind at 1. rewrite Hrej'.
  destruct (_ =? _); [discriminate|]. inversion Hrun; reflexivity.
Qed.
End SourceAsStream.

Lemma secure_random_on_source_as_on_stream_witness :
  exists s_end s',
    secure_random secure_random_bit 9 3 (entropy_init six_byte_dev) = Ret 1 s' /\
    draw_bits secure_random_bit (length (block_bits six_bytes) - 2) s'
      = Ret (drop 2 (block_bits six_bytes)) s_end.
Proof.
  destruct (draw_block (entropy_init six_byte_dev) six_bytes eq_refl eq_refl)
    as (s_end & Hall & _); [vm_compute; lia|].
  exists s_end.
  apply (secure_random_on_source_as_on_stream secure_random_bit
           (block_bits six_bytes) s_end
           (fun i => default 0 (block_bits six_bytes !! i) =? 1)
           (fun i b H => f_equal (fun o => default 0 o =? 1) H)
           9 3 (entropy_init six_byte_dev) 1 2%nat).
  - exact Hall.
  - vm_compute. reflexivity.
  - vm_compute. lia.
Defined.
